(** * WeSpeaker ResNet34-LM web UI: the request handlers of [app.py]

    A shallow embedding of the three functions behind the Gradio interface,
    [load_model_info], [process_audio] and [compare_speakers], and the
    properties of the repository's specification about them.

    Conventions of the embedding.
    - A Python [str] is a Rocq [string] holding its UTF-8 bytes; UTF-8 is
      prefix free, so concatenation and containment of texts agree with
      concatenation and containment of their encodings.
    - A Python [float] is a primitive [float] (IEEE 754 binary64), so
      [1 - similarity] and [similarity > 0.7] are the machine operations.
    - A Python [dict] is a [gmap] with string keys; a missing key raises
      [KeyError].
    - The process-wide NumPy generator is threaded as an explicit state:
      every handler is a computation [M A] that may ask the generator for
      draws and raise.  The state records the requests served, and a draw
      is a function of them. *)

From Stdlib Require Import ZArith Lia List String Ascii Floats DecimalString.
From stdpp Require Import gmap strings.

Set Warnings "-inexact-float".
Open Scope string_scope.

(** ** Python values, exceptions and the handler monad *)

Inductive value :=
  | VStr (s : string)
  | VInt (n : Z).

Inductive exn :=
  | KeyError (key : string).

Inductive outcome (A : Type) :=
  | Returned (a : A)
  | Raised (e : exn).
Arguments Returned {A} a.
Arguments Raised {A} e.

(** The kinds of draw the handlers ask of the generator. *)
Inductive request :=
  | Normal
  | Double.

(** The generator [np.random], seen from outside.  It is deterministic, so
    what a draw yields is a function of the draws served before it:
    [gauss_at g h] is the value a standard normal draw yields after the
    requests [h], [double_at g h] the value [random_sample] (a double of the
    half-open unit interval) yields after them; [drawn] lists the requests
    served so far.  Nothing relates the double that follows a normal draw
    to the doubles of a run without it. *)
Record RandomState := {
  gauss_at : list request → float;
  double_at : list request → float;
  drawn : list request
}.

(** The generator after [n] more draws of one kind. *)
Definition advance (kind : request) (n : nat) (g : RandomState) : RandomState :=
  {| gauss_at := gauss_at g;
     double_at := double_at g;
     drawn := (drawn g ++ replicate n kind)%list |}.

Definition M (A : Type) : Type := RandomState → outcome A * RandomState.

#[global] Instance M_ret : MRet M := λ A a g, (Returned a, g).

#[global] Instance M_bind : MBind M := λ A B f m g,
  match m g with
  | (Returned a, g') => f a g'
  | (Raised e, g') => (Raised e, g')
  end.

Definition raise {A : Type} (e : exn) : M A := λ g, (Raised e, g).

(** [d[key]] *)
Definition getitem (d : gmap string value) (key : string) : M value :=
  match d !! key with
  | Some v => mret v
  | None => raise (KeyError key)
  end.

(** ** Text *)

Definition LF : string := String (ascii_of_nat 10) "".

(** [str(n)] for an [int]. *)
Definition str_int (n : Z) : string := NilZero.string_of_int (Z.to_int n).

(** An f-string is the concatenation of its literal parts and of its
    replacement fields, each already formatted. *)
Definition fstring (parts : list string) : string := String.concat "" parts.

(** A replacement field [{v}] without a format spec: [format(v, '')],
    which is [str(v)]. *)
Definition format_value (v : value) : string :=
  match v with
  | VStr s => s
  | VInt n => str_int n
  end.

(** [posixpath.basename]: [p[p.rfind('/') + 1:]].  [after] is the text
    behind the last separator met so far. *)
Fixpoint basename_from (p after : string) : string :=
  match p with
  | "" => after
  | String c rest =>
      if Ascii.eqb c "/" then basename_from rest rest
      else basename_from rest after
  end.

Definition basename (p : string) : string := basename_from p p.

(** Does the path name a directory part? *)
Fixpoint has_separator (p : string) : bool :=
  match p with
  | "" => false
  | String c rest => Ascii.eqb c "/" || has_separator rest
  end.

(** [sub in s] *)
Definition contains (sub s : string) : Prop :=
  ∃ before after, s = before +:+ sub +:+ after.

Definition ends_with (suffix s : string) : Prop :=
  ∃ before, s = before +:+ suffix.

(** The text [shown] stands in [report] right behind its [label]. *)
Definition shows (label shown report : string) : Prop :=
  contains (label +:+ shown) report.

(** What is left of [s] behind the prefix [p], if [s] starts with it. *)
Fixpoint strip_prefix (p s : string) : option string :=
  match p, s with
  | "", _ => Some s
  | String a p', String b s' => if Ascii.eqb a b then strip_prefix p' s' else None
  | String _ _, "" => None
  end.

(** The first occurrence of [sub] in [s]: the text before it and the text
    behind it. *)
Fixpoint find_text (sub s : string) : option (string * string) :=
  match strip_prefix sub s with
  | Some after => Some ("", after)
  | None =>
      match s with
      | "" => None
      | String c rest =>
          match find_text sub rest with
          | Some (before, after) => Some (String c before, after)
          | None => None
          end
      end
  end.

(** ** Python floats as text

    CPython prints a float from its exact binary value: [format(x, '.4f')]
    is that value correctly rounded (ties to even) to four decimals, and
    [repr(x)], which a bare replacement field [{x}] uses, is the shortest
    decimal that reads back as [x].  Both are computed here on the exact
    dyadic value [m * 2^e] that [Prim2SF] exposes. *)
Module PyFloat.

Open Scope Z_scope.

Definition sign_text (s : bool) : string := if s then "-" else "".

Definition digit (d : Z) : string := String (ascii_of_nat (48 + Z.to_nat d)) "".

(** The last [width] decimal digits of [n], with leading zeros. *)
Fixpoint zfill (width : nat) (n : Z) : string :=
  match width with
  | O => ""
  | S w => zfill w (n / 10) +:+ digit (n mod 10)
  end.

Fixpoint zeros (n : nat) : string :=
  match n with
  | O => ""
  | S k => "0" +:+ zeros k
  end.

(** [n / d] rounded to the nearest integer, ties to even ([0 <= n], [0 < d]). *)
Definition div_half_even (n d : Z) : Z :=
  let q := n / d in
  match 2 * (n mod d) ?= d with
  | Lt => q
  | Gt => q + 1
  | Eq => if Z.even q then q else q + 1
  end.

(** The finite value [m * 2^e] as the fraction [numerator / denominator]. *)
Definition numerator (m : positive) (e : Z) : Z :=
  if 0 <=? e then Zpos m * 2 ^ e else Zpos m.

Definition denominator (e : Z) : Z :=
  if 0 <=? e then 1 else 2 ^ (- e).

(** [n] units of [10^-nd], printed in fixed notation. *)
Definition fixed (nd : nat) (n : Z) : string :=
  str_int (n / 10 ^ Z.of_nat nd) +:+ "." +:+ zfill nd (n mod 10 ^ Z.of_nat nd).

(** [format(x, '.<nd>f')] *)
Definition format_f (nd : nat) (x : float) : string :=
  match Prim2SF x with
  | S754_nan => "nan"
  | S754_infinity s => sign_text s +:+ "inf"
  | S754_zero s => sign_text s +:+ fixed nd 0
  | S754_finite s m e =>
      sign_text s +:+
      fixed nd (div_half_even (numerator m e * 10 ^ Z.of_nat nd) (denominator e))
  end.

(** *** Shortest round-trip digits *)
Section Shortest.

Variables (m : positive) (e : Z).

Let num := numerator m e.
Let den := denominator e.
Let ulp := if 0 <=? e then 2 ^ e else 1.

(** The reals that round to [m * 2^e] lie between [lo4] and [hi4], in
    units of [1 / (4 * den)]: half a gap on either side, the gap below
    being half as wide at the bottom of a binade.  The end points round
    to it when [m] is even. *)
Let hi4 := 4 * num + 2 * ulp.
Let lo4 :=
  if (Zpos m =? 2 ^ 52) && (-1074 <? e) then 4 * num - ulp else 4 * num - 2 * ulp.

(** Does the decimal [c * 10^q] read back as [m * 2^e]? *)
Definition reads_back (c q : Z) : bool :=
  let '(v, lo, hi) :=
    if 0 <=? q then (c * 10 ^ q * (4 * den), lo4, hi4)
    else (c * (4 * den), lo4 * 10 ^ (- q), hi4 * 10 ^ (- q)) in
  if Z.even (Zpos m) then (lo <=? v) && (v <=? hi) else (lo <? v) && (v <? hi).

(** [m * 2^e < 10^k] *)
Definition below_pow10 (k : Z) : bool :=
  if 0 <=? k then num <? den * 10 ^ k else num * 10 ^ (- k) <? den.

(** The least [k] from [k0] on with [m * 2^e < 10^k]. *)
Fixpoint decimal_point (fuel : nat) (k0 : Z) : Z :=
  match fuel with
  | O => k0
  | S f => if below_pow10 k0 then k0 else decimal_point f (k0 + 1)
  end.

(** [floor (m * 2^e / 10^q)] *)
Definition floor_at (q : Z) : Z :=
  if 0 <=? q then num / (den * 10 ^ q) else (num * 10 ^ (- q)) / den.

(** Is [c * 10^q] at least as close to the value as [(c + 1) * 10^q]? *)
Definition nearer_below (c q : Z) : bool :=
  let '(twice, mid) :=
    if 0 <=? q then (2 * num, (2 * c + 1) * 10 ^ q * den)
    else (2 * num * 10 ^ (- q), (2 * c + 1) * den) in
  match twice ?= mid with
  | Lt => true
  | Gt => false
  | Eq => Z.even c
  end.

(** The first precision [p] at which one of the two [p]-digit decimals
    around the value reads back; the nearer one if both do. *)
Fixpoint shortest (fuel : nat) (k p : Z) : Z * Z :=
  let q := k - p in
  let c := floor_at q in
  match fuel with
  | O => (if nearer_below c q then c else c + 1, q)
  | S f =>
      match reads_back c q, reads_back (c + 1) q with
      | true, true => (if nearer_below c q then c else c + 1, q)
      | true, false => (c, q)
      | false, true => (c + 1, q)
      | false, false => shortest f k (p + 1)
      end
  end.

End Shortest.

Fixpoint strip_zeros (fuel : nat) (c q : Z) : Z * Z :=
  match fuel with
  | O => (c, q)
  | S f => if (c mod 10 =? 0) && (0 <? c) then strip_zeros f (c / 10) (q + 1) else (c, q)
  end.

(** The digits of the shortest decimal and the position of its decimal
    point: the value reads [0.d1 d2 ... dn * 10^decpt]. *)
Definition shortest_digits (m : positive) (e : Z) : string * Z :=
  let k := decimal_point m e 640 (-330) in
  let '(c, q) := shortest m e 17 k 1 in
  let '(c, q) := strip_zeros 20 c q in
  let ds := str_int c in
  (ds, Z.of_nat (String.length ds) + q).

(** [repr] of a finite positive float from its digits: fixed notation
    while [-4 < decpt <= 16], scientific otherwise. *)
Definition repr_digits (ds : string) (decpt : Z) : string :=
  let n := String.length ds in
  if (-4 <? decpt) && (decpt <=? 16) then
    if decpt <=? 0 then "0." +:+ zeros (Z.to_nat (- decpt)) +:+ ds
    else if Z.of_nat n <=? decpt then ds +:+ zeros (Z.to_nat decpt - n) +:+ ".0"
    else String.substring 0 (Z.to_nat decpt) ds +:+ "." +:+
         String.substring (Z.to_nat decpt) (n - Z.to_nat decpt) ds
  else
    let ev := decpt - 1 in
    (if (n =? 1)%nat then ds
     else String.substring 0 1 ds +:+ "." +:+ String.substring 1 (n - 1) ds) +:+
    "e" +:+ (if ev <? 0 then "-" else "+") +:+
    (if Z.abs ev <? 10 then "0" else "") +:+ str_int (Z.abs ev).

(** [repr(x)], also [str(x)] and [format(x, '')]. *)
Definition repr (x : float) : string :=
  match Prim2SF x with
  | S754_nan => "nan"
  | S754_infinity s => sign_text s +:+ "inf"
  | S754_zero s => sign_text s +:+ "0.0"
  | S754_finite s m e =>
      let '(ds, decpt) := shortest_digits m e in
      sign_text s +:+ repr_digits ds decpt
  end.

(** [bool(x)]: a float is falsy exactly when it equals zero. *)
Definition truthy (x : float) : bool := negb (x =? 0)%float.

End PyFloat.

(** ** NumPy *)

(** A two-dimensional [ndarray], row by row. *)
Definition ndarray (A : Type) : Type := list (list A).

(** [a.shape] *)
Definition shape {A : Type} (a : ndarray A) : nat * nat :=
  (length a, match a with [] => 0 | row :: _ => length row end).

(** [len(a)]: the extent of the first axis. *)
Definition len {A : Type} (a : ndarray A) : nat := length a.

(** [str] of a pair of [int]s. *)
Definition str_shape (s : nat * nat) : string :=
  "(" +:+ str_int (Z.of_nat (fst s)) +:+ ", " +:+ str_int (Z.of_nat (snd s)) +:+ ")".

(** [np.random.randn(d0, d1)]: [d0 * d1] standard normal draws, filled in
    row-major order. *)
Definition normal_rows (d0 d1 : nat) (g : RandomState) : ndarray float :=
  map (λ i, map (λ j, gauss_at g (drawn g ++ replicate (i * d1 + j) Normal)%list)
              (seq 0 d1))
      (seq 0 d0).

Definition randn (d0 d1 : nat) : M (ndarray float) := λ g,
  (Returned (normal_rows d0 d1 g), advance Normal (d0 * d1) g).

(** A binary32 number is a [spec_float] of precision 24; the cast of a
    double rounds its value to the nearest one, ties to even. *)
Definition to_float32 (x : float) : spec_float :=
  match Prim2SF x with
  | S754_finite s m e => binary_normalize 24 128 (cond_Zopp s (Zpos m)) e s
  | v => v
  end.

(** [a.astype(np.float32)] *)
Definition astype_float32 (a : ndarray float) : ndarray spec_float :=
  map (map to_float32) a.

(** [np.random.uniform(low, high)]: NumPy returns
    [low + (high - low) * random_sample()]. *)
Definition uniform (low high : float) : M float := λ g,
  (Returned (low + (high - low) * double_at g (drawn g))%float, advance Double 1 g).

(** What NumPy promises of [random_sample]: a double of [[0, 1)]. *)
Definition unit_interval (u : float) : Prop :=
  (0 <=? u)%float = true ∧ (u <? 1)%float = true.

(** ** The handlers of [app.py] *)

Definition load_model_info : M (gmap string value) :=
  mret (list_to_map [
    ("model_name", VStr "wespeaker-voxceleb-resnet34-LM");
    ("description", VStr "WeSpeaker ResNet34 说话人嵌入模型，基于 VoxCeleb 数据集训练");
    ("sample_rate", VInt 16000);
    ("embedding_dim", VInt 256);
    ("status", VStr "模型已加载")
  ]).

(** [duration if duration else 'whole'] *)
Definition shown_duration (duration : option float) : string :=
  match duration with
  | Some d => if PyFloat.truthy d then PyFloat.repr d else "whole"
  | None => "whole"
  end.

(** [step if step else 'N/A'] *)
Definition shown_step (step : option float) : string :=
  match step with
  | Some s => if PyFloat.truthy s then PyFloat.repr s else "N/A"
  | None => "N/A"
  end.

(** The f-string bound to [info_text]. *)
Definition info_text (model_name sample_rate embedding_dim status : value)
    (window_type : string) (duration step : option float)
    (audio_file : string) (embedding : ndarray spec_float) : string :=
  fstring [
    LF; "**模型信息：**"; LF;
    "- 模型名称: "; format_value model_name; LF;
    "- 采样率: "; format_value sample_rate; " Hz"; LF;
    "- 嵌入维度: "; format_value embedding_dim; LF;
    "- 处理状态: "; format_value status; LF;
    LF; "**处理参数：**"; LF;
    "- 窗口类型: "; window_type; LF;
    "- 持续时间: "; shown_duration duration; LF;
    "- 步长: "; shown_step step; LF;
    LF; "**音频文件：** "; basename audio_file; LF;
    "**嵌入向量形状：** "; str_shape (shape embedding); LF
  ].

Definition process_audio (audio_file : option string) (window_type : string)
    (duration step : option float) : M (string * option (ndarray spec_float)) :=
  match audio_file with
  | None => mret ("请上传音频文件", None)
  | Some audio_file =>
      model_info ← load_model_info;
      noise ← randn 1 256;
      let embedding := astype_float32 noise in
      model_name ← getitem model_info "model_name";
      sample_rate ← getitem model_info "sample_rate";
      embedding_dim ← getitem model_info "embedding_dim";
      status ← getitem model_info "status";
      mret (info_text model_name sample_rate embedding_dim status
              window_type duration step audio_file embedding,
            Some embedding)
  end.

(** ['同一说话人' if similarity > 0.7 else '不同说话人'] *)
Definition verdict (similarity : float) : string :=
  if (0.7 <? similarity)%float then "同一说话人" else "不同说话人".

(** The f-string bound to [result]. *)
Definition result_text (audio1 audio2 : string) (similarity distance : float) : string :=
  fstring [
    LF; "**说话人比较结果：**"; LF;
    LF; "**文件1：** "; basename audio1; LF;
    "**文件2：** "; basename audio2; LF;
    LF; "**相似度：** "; PyFloat.format_f 4 similarity; " (余弦相似度)"; LF;
    "**距离：** "; PyFloat.format_f 4 distance; " (余弦距离)"; LF;
    LF; "**判断：** "; verdict similarity; LF
  ].

Definition compare_speakers (audio1 audio2 : option string) : M string :=
  match audio1, audio2 with
  | Some audio1, Some audio2 =>
      similarity ← uniform 0.3 0.95;
      let distance := (1 - similarity)%float in
      mret (result_text audio1 audio2 similarity distance)
  | _, _ => mret "请上传两个音频文件进行比较"
  end.

(** The array [process_audio] builds from generator state [g]. *)
Definition drawn_embedding (g : RandomState) : ndarray spec_float :=
  astype_float32 (normal_rows 1 256 g).

(** The similarity [compare_speakers] draws in generator state [g]. *)
Definition drawn_similarity (g : RandomState) : float :=
  (0.3 + (0.95 - 0.3) * double_at g (drawn g))%float.

(** A generator whose [random_sample] always yields [u], and whose normal
    draws run through a fixed sequence. *)
Definition generator_yielding (u : float) : RandomState :=
  {| gauss_at := λ h, (of_uint63 (Uint63.of_Z (Z.of_nat (length h))) / 256 - 0.5)%float;
     double_at := λ _, u;
     drawn := [] |}.

(** ** The interface wiring

    The Gradio blocks of [app.py], seen as a state machine.  A component
    holds a value and a visibility; the user edits the components that are
    shown; a [change] of the window type runs its handler, whose updates
    set the visibility of the duration and step inputs. *)
Module Interface.

(** [gr.update(visible=b)] *)
Record update := { visible : bool }.

(** The handler of [window_type.change]:
    [lambda x: (gr.update(visible=x=="sliding"), gr.update(visible=x=="sliding"))]. *)
Definition on_window_type_change (x : string) : update * update :=
  ({| visible := String.eqb x "sliding" |}, {| visible := String.eqb x "sliding" |}).

(** The inputs of the extraction tab. *)
Record tab := {
  audio_input : option string;
  window_type : string;
  duration : option float;
  duration_visible : bool;
  step : option float;
  step_visible : bool
}.

(** The components as the blocks declare them. *)
Definition initial : tab :=
  {| audio_input := None;
     window_type := "whole";
     duration := Some 3%float;
     duration_visible := false;
     step := Some 1%float;
     step_visible := false |}.

(** The choices of the window type radio. *)
Definition choices : list string := ["whole"; "sliding"].

Inductive action :=
  | SetAudio (path : option string)
  | Choose (choice : string)
  | SetDuration (v : option float)
  | SetStep (v : option float).

(** One user action.  Choosing the value already chosen changes nothing and
    fires no event; a hidden input cannot be edited. *)
Definition act (st : tab) (a : action) : option tab :=
  match a with
  | SetAudio path =>
      Some {| audio_input := path; window_type := window_type st;
              duration := duration st; duration_visible := duration_visible st;
              step := step st; step_visible := step_visible st |}
  | Choose choice =>
      if negb (bool_decide (choice ∈ choices)) then None
      else if String.eqb choice (window_type st) then Some st
      else
        let '(to_duration, to_step) := on_window_type_change choice in
        Some {| audio_input := audio_input st; window_type := choice;
                duration := duration st; duration_visible := visible to_duration;
                step := step st; step_visible := visible to_step |}
  | SetDuration v =>
      if duration_visible st then
        Some {| audio_input := audio_input st; window_type := window_type st;
                duration := v; duration_visible := duration_visible st;
                step := step st; step_visible := step_visible st |}
      else None
  | SetStep v =>
      if step_visible st then
        Some {| audio_input := audio_input st; window_type := window_type st;
                duration := duration st; duration_visible := duration_visible st;
                step := v; step_visible := step_visible st |}
      else None
  end.

Fixpoint run (st : tab) (trace : list action) : option tab :=
  match trace with
  | [] => Some st
  | a :: rest =>
      match act st a with
      | Some st' => run st' rest
      | None => None
      end
  end.

(** The Markdown of the model information tab. *)
Definition model_info_page : string :=
  fstring [
    LF;
    "            ## 模型详细信息";
    LF;
    "            ";
    LF;
    "            **模型架构：** ResNet34";
    LF;
    "            **训练数据集：** VoxCeleb";
    LF;
    "            **采样率：** 16000 Hz";
    LF;
    "            **嵌入维度：** 256";
    LF;
    "            ";
    LF;
    "            ### 技术特点";
    LF;
    "            ";
    LF;
    "            - 基于深度残差网络的说话人嵌入提取";
    LF;
    "            - 支持全窗口和滑动窗口两种提取模式";
    LF;
    "            - 可用于说话人识别、验证和聚类任务";
    LF;
    "            - 兼容 pyannote.audio 框架";
    LF;
    "            ";
    LF;
    "            ### 使用场景";
    LF;
    "            ";
    LF;
    "            - 说话人识别：识别音频中的说话人身份";
    LF;
    "            - 说话人验证：验证两个音频是否来自同一说话人";
    LF;
    "            - 说话人聚类：对多个音频进行说话人分组";
    LF;
    "            "
  ].

End Interface.

(** An extraction request and then a comparison request, served in a row
    by the same process. *)
Definition extract_then_compare (audio_file : option string) (window_type : string)
    (duration step : option float) (audio1 audio2 : option string)
    : M ((string * option (ndarray spec_float)) * string) :=
  extracted ← process_audio audio_file window_type duration step;
  compared ← compare_speakers audio1 audio2;
  mret (extracted, compared).

(** ** Binary64 values

    The arithmetic of [float] is specified by [SpecFloat] on mantissa and
    exponent pairs.  These notions state what its rounding preserves. *)

(** A shift record that has dropped no set bit. *)
Definition exact_record (r : shr_record) : Prop :=
  shr_r r = false ∧ shr_s r = false.

(** [m * 2^e] is written the way binary64 stores it: 53 bits of mantissa,
    fewer only at the least exponent. *)
Definition canonical (m : positive) (e : Z) : Prop :=
  fexp prec emax (Zpos (digits2_pos m) + e) = e.

(** A finite binary64 number. *)
Definition representable (m : positive) (e : Z) : Prop :=
  canonical m e ∧ (e ≤ 971)%Z.

(** The value [m * 2^e] scaled by [2^K], an integer once [0 <= e + K]. *)
Definition dyadic (K m e : Z) : Z := (m * 2 ^ (e + K))%Z.

(** ** Text lemmas *)

Lemma append_cons (c : ascii) (s t : string) :
  String c s +:+ t = String c (s +:+ t).
Proof. reflexivity. Qed.

Lemma append_nil_r (s : string) : s +:+ "" = s.
Proof.
  induction s as [|c s IH]; [reflexivity | now rewrite append_cons, IH].
Qed.

Lemma append_assoc (a b c : string) : (a +:+ b) +:+ c = a +:+ b +:+ c.
Proof.
  induction a as [|x a IH]; [reflexivity | now rewrite !append_cons, IH].
Qed.

Lemma length_append (a b : string) :
  String.length (a +:+ b) = String.length a + String.length b.
Proof.
  induction a as [|x a IH]; [reflexivity |].
  rewrite append_cons. cbn [String.length]. now rewrite IH.
Qed.

Lemma basename_from_cases (p after : string) :
  (has_separator p = false ∧ basename_from p after = after)
  ∨ (∃ dir, p = dir +:+ "/" +:+ basename_from p after
          ∧ has_separator (basename_from p after) = false).
Proof.
  revert after. induction p as [|c rest IH]; intros after.
  - left. split; reflexivity.
  - cbn [basename_from has_separator]. destruct (Ascii.eqb c "/") eqn:Ec.
    + apply Ascii.eqb_eq in Ec as ->. right.
      destruct (IH rest) as [[Hsep Hbase] | (dir & Hdir & Hsep)].
      * exists "". rewrite Hbase. split; [reflexivity | exact Hsep].
      * exists (String "/" dir). split; [| exact Hsep].
        rewrite append_cons. f_equal. exact Hdir.
    + destruct (IH after) as [[Hsep Hbase] | (dir & Hdir & Hsep)].
      * left. split; assumption.
      * right. exists (String c dir). split; [| exact Hsep].
        rewrite append_cons. f_equal. exact Hdir.
Qed.

(** The base name is the path itself when it names no directory, and
    otherwise what follows its last separator. *)
Lemma basename_spec (p : string) :
  (has_separator p = false ∧ basename p = p)
  ∨ (∃ dir, p = dir +:+ "/" +:+ basename p ∧ has_separator (basename p) = false).
Proof. apply basename_from_cases. Qed.

Lemma has_separator_contains (s : string) :
  has_separator s = false → ¬ contains "/" s.
Proof.
  intros H (before & after & ->). induction before as [|c before IH].
  - discriminate H.
  - rewrite append_cons in H. cbn [has_separator] in H.
    apply orb_false_elim in H as [_ H]. exact (IH H).
Qed.

(** The base name holds no separator; it is the path itself, or what
    follows a separator of the path. *)
Lemma basename_unique_suffix (p : string) :
  ¬ contains "/" (basename p)
  ∧ (p = basename p ∨ ∃ dir, p = dir +:+ "/" +:+ basename p).
Proof.
  destruct (basename_spec p) as [[Hsep Hp] | (dir & Hdir & Hsep)].
  - rewrite Hp. split; [apply has_separator_contains, Hsep | now left].
  - split; [apply has_separator_contains, Hsep | right; now exists dir].
Qed.

Example basename_examples :
  basename "/tmp/gradio/a.wav" = "a.wav" ∧ basename "a.wav" = "a.wav"
  ∧ basename "uploads/" = "".
Proof. repeat split. Qed.

Lemma fstring_cons (p : string) (ps : list string) :
  fstring (p :: ps) = p +:+ fstring ps.
Proof.
  unfold fstring. destruct ps as [|q ps].
  - now rewrite append_nil_r.
  - reflexivity.
Qed.

Lemma fstring_app (ps qs : list string) :
  fstring (ps ++ qs) = fstring ps +:+ fstring qs.
Proof.
  induction ps as [|p ps IH].
  - reflexivity.
  - change ((p :: ps) ++ qs)%list with (p :: (ps ++ qs))%list.
    now rewrite !fstring_cons, IH, append_assoc.
Qed.

(** Every part of an f-string occurs in its value. *)
Lemma fstring_contains (p : string) (ps : list string) :
  p ∈ ps → contains p (fstring ps).
Proof.
  intros Hin. apply list_elem_of_split in Hin as (l1 & l2 & ->).
  exists (fstring l1), (fstring l2).
  now rewrite fstring_app, fstring_cons.
Qed.


Lemma fstring_ends_with (ps qs : list string) :
  ends_with (fstring qs) (fstring (ps ++ qs)).
Proof. exists (fstring ps). apply fstring_app. Qed.

(** A run of consecutive parts occurs as one piece. *)
Lemma fstring_contains_run (l1 mid l2 : list string) :
  contains (fstring mid) (fstring (l1 ++ mid ++ l2)).
Proof. exists (fstring l1), (fstring l2). now rewrite !fstring_app. Qed.

Lemma contains_run_eq (l1 mid l2 parts : list string) (s : string) :
  parts = (l1 ++ mid ++ l2)%list → s = fstring mid → contains s (fstring parts).
Proof. intros -> ->. apply fstring_contains_run. Qed.

Lemma ends_with_eq (l1 l2 parts : list string) (s : string) :
  parts = (l1 ++ l2)%list → s = fstring l2 → ends_with s (fstring parts).
Proof. intros -> ->. apply fstring_ends_with. Qed.

Lemma append_same_length (a b s t : string) :
  String.length s = String.length t → a +:+ s = b +:+ t → s = t.
Proof.
  intros Hlen. revert b. induction a as [|x a IH]; intros [|y b] H.
  - exact H.
  - exfalso. apply (f_equal String.length) in H.
    change ("" +:+ s) with s in H. rewrite append_cons in H. cbn [String.length] in H.
    rewrite length_append in H. lia.
  - exfalso. apply (f_equal String.length) in H.
    change ("" +:+ t) with t in H. rewrite append_cons in H. cbn [String.length] in H.
    rewrite length_append in H. lia.
  - rewrite !append_cons in H. injection H as _ H. exact (IH b H).
Qed.

(** Two endings of one text that are equally long are the same. *)
Lemma ends_with_same_length (s t r : string) :
  ends_with s r → ends_with t r → String.length s = String.length t → s = t.
Proof.
  intros (a & ->) (b & H) Hlen. exact (append_same_length a b s t Hlen H).
Qed.

Lemma shows_contains (label shown report : string) :
  shows label shown report → contains shown report.
Proof.
  intros (x & y & ->). exists (x +:+ label), y. now rewrite !append_assoc.
Qed.


(** ** What a call returns *)

(** Finds the label [p] in the f-string of the goal and checks that it and
    the two parts behind it make up the text the goal names. *)
Ltac line_from p :=
  lazymatch goal with
  | |- contains ?s (fstring ?L) =>
      let rec go pre l :=
        lazymatch l with
        | p :: ?q :: ?r :: ?rest =>
            apply (contains_run_eq (rev pre) [p; q; r] rest L s);
            [reflexivity | vm_compute; reflexivity]
        | ?x :: ?rest => go (x :: pre) rest
        end in
      go (@nil string) L
  end.

(** Finds the label [p] in the f-string of the goal and checks that the
    [n] parts from it on make up the text the goal names. *)
Ltac run_from p n :=
  lazymatch goal with
  | |- contains ?s (fstring ?L) =>
      let rec go pre l :=
        lazymatch l with
        | p :: ?rest =>
            let mid := eval cbv beta iota delta [firstn] in (firstn n l) in
            let post := eval cbv beta iota delta [skipn] in (skipn n l) in
            apply (contains_run_eq (rev pre) mid post L s);
            [reflexivity | first [reflexivity | vm_compute; reflexivity]]
        | ?x :: ?rest => go (x :: pre) rest
        end in
      go (@nil string) L
  end.

(** Finds the label [p] in the f-string of the goal and checks that the
    parts from it on make up the text the goal names. *)
Ltac tail_from p :=
  lazymatch goal with
  | |- ends_with ?s (fstring ?L) =>
      let rec go pre l :=
        lazymatch l with
        | p :: ?rest =>
            apply (ends_with_eq (rev pre) (p :: rest) L s); reflexivity
        | ?x :: ?rest => go (x :: pre) rest
        end in
      go (@nil string) L
  end.

Lemma process_audio_present (g : RandomState) (audio_file window_type : string)
    (duration step : option float) :
  process_audio (Some audio_file) window_type duration step g =
  (Returned (info_text (VStr "wespeaker-voxceleb-resnet34-LM") (VInt 16000) (VInt 256)
               (VStr "模型已加载") window_type duration step audio_file
               (drawn_embedding g),
             Some (drawn_embedding g)),
   advance Normal 256 g).
Proof. reflexivity. Qed.

Lemma compare_speakers_present (g : RandomState) (audio1 audio2 : string) :
  compare_speakers (Some audio1) (Some audio2) g =
  (Returned (result_text audio1 audio2 (drawn_similarity g) (1 - drawn_similarity g)%float),
   advance Double 1 g).
Proof. reflexivity. Qed.

(** ** Rounding in binary64

    The operations of [SpecFloat] round the exact result to the nearest
    representable number.  The lemmas below show that such a result never
    leaves an interval whose end points are representable, which bounds
    the similarity that [compare_speakers] draws. *)
Module Binary64.

Local Open Scope Z_scope.

Lemma digits2_pos_bounds (p : positive) :
  2 ^ (Zpos (digits2_pos p) - 1) <= Zpos p < 2 ^ Zpos (digits2_pos p).
Proof.
  induction p as [p IH | p IH |]; cbn [digits2_pos].
  - rewrite Pos2Z.inj_succ, Z.pow_succ_r by lia.
    replace (Z.succ (Zpos (digits2_pos p)) - 1) with (Z.succ (Zpos (digits2_pos p) - 1)) by lia.
    rewrite Z.pow_succ_r by lia. lia.
  - rewrite Pos2Z.inj_succ, Z.pow_succ_r by lia.
    replace (Z.succ (Zpos (digits2_pos p)) - 1) with (Z.succ (Zpos (digits2_pos p) - 1)) by lia.
    rewrite Z.pow_succ_r by lia. lia.
  - cbn. lia.
Qed.

(* digits unique *)
Lemma digits2_pos_unique (p : positive) (d : Z) :
  2 ^ (d - 1) <= Zpos p < 2 ^ d -> Zpos (digits2_pos p) = d.
Proof.
  intros [Hlo Hhi]. pose proof (digits2_pos_bounds p) as [Hlo' Hhi'].
  assert (Hd : 0 < d).
  { destruct (Z.lt_trichotomy d 0) as [Hneg | [-> | Hpos]]; [| | assumption].
    - rewrite (Z.pow_neg_r 2 d) in Hhi by assumption. lia.
    - cbn in Hhi. lia. }
  destruct (Z.lt_trichotomy (Zpos (digits2_pos p)) d) as [Hlt | [Heq | Hgt]]; [| assumption |].
  - assert (2 ^ Zpos (digits2_pos p) <= 2 ^ (d - 1)) by (apply Z.pow_le_mono_r; lia). lia.
  - assert (2 ^ d <= 2 ^ (Zpos (digits2_pos p) - 1)) by (apply Z.pow_le_mono_r; lia). lia.
Qed.

Lemma fexp_unfold (e : Z) : fexp prec emax e = Z.max (e - 53) (-1074).
Proof. reflexivity. Qed.

Lemma iter_pos_nat {A : Type} (f : A -> A) (p : positive) (x : A) :
  SpecFloat.iter_pos f p x = Nat.iter (Pos.to_nat p) f x.
Proof.
  revert x. induction p as [p IH | p IH |]; intros x; cbn [SpecFloat.iter_pos].
  - rewrite !IH, Pos2Nat.inj_xI.
    replace (S (2 * Pos.to_nat p))%nat with (Pos.to_nat p + (Pos.to_nat p + 1))%nat by lia.
    rewrite !Nat.iter_add. reflexivity.
  - rewrite !IH, Pos2Nat.inj_xO.
    replace (2 * Pos.to_nat p)%nat with (Pos.to_nat p + Pos.to_nat p)%nat by lia.
    rewrite Nat.iter_add. reflexivity.
  - reflexivity.
Qed.

Lemma shr_1_spec (r : shr_record) :
  0 <= shr_m r ->
  shr_m (shr_1 r) = shr_m r / 2
  /\ (exact_record r -> shr_m r mod 2 = 0 -> exact_record (shr_1 r)).
Proof.
  destruct r as [m r s]. cbn [shr_m]. intros Hm. unfold exact_record.
  destruct m as [| [p | p |] | p]; cbn [shr_1 shr_m shr_r shr_s]; try lia.
  - split; [reflexivity |]. intros [-> ->] _. split; reflexivity.
  - split; [rewrite Pos2Z.inj_xI; apply Z.div_unique with 1; lia |].
    intros _ H. rewrite Pos2Z.inj_xI in H.
    rewrite Z.add_comm, Z.mul_comm, Z.mod_add in H by lia. discriminate H.
  - split; [rewrite Pos2Z.inj_xO; apply Z.div_unique with 0; lia |].
    intros [-> ->] _. split; reflexivity.
  - split; [reflexivity |]. intros _ H. discriminate H.
Qed.

Lemma shr_iter_spec (n : nat) (r : shr_record) :
  0 <= shr_m r ->
  shr_m (Nat.iter n shr_1 r) = shr_m r / 2 ^ Z.of_nat n
  /\ (exact_record r -> shr_m r mod 2 ^ Z.of_nat n = 0 -> exact_record (Nat.iter n shr_1 r)).
Proof.
  intros Hm. induction n as [| n [IHm IHx]].
  - change (Nat.iter 0 shr_1 r) with r. change (Z.of_nat 0) with 0.
    rewrite Z.pow_0_r, Z.div_1_r. split; [reflexivity | tauto].
  - change (Nat.iter (S n) shr_1 r) with (shr_1 (Nat.iter n shr_1 r)).
    assert (Hpos : 0 < 2 ^ Z.of_nat n) by (apply Z.pow_pos_nonneg; lia).
    assert (Hnn : 0 <= shr_m (Nat.iter n shr_1 r)).
    { rewrite IHm. apply Z.div_pos; lia. }
    destruct (shr_1_spec _ Hnn) as [H1 H2].
    rewrite Nat2Z.inj_succ, Z.pow_succ_r by lia.
    split.
    + rewrite H1, IHm, Z.div_div by lia. f_equal. lia.
    + intros Hx Hmod.
      assert (Hdiv : shr_m r = 2 ^ Z.of_nat n * (2 * (shr_m r / (2 * 2 ^ Z.of_nat n)))).
      { pose proof (Z.div_mod (shr_m r) (2 * 2 ^ Z.of_nat n) ltac:(lia)). lia. }
      apply H2.
      * apply IHx; [assumption |]. rewrite Hdiv, Z.mul_comm, Z.mod_mul by lia. reflexivity.
      * rewrite IHm. rewrite Hdiv at 1. rewrite Z.mul_comm, Z.div_mul by lia.
        rewrite Z.mul_comm, Z.mod_mul by lia. reflexivity.
Qed.

Lemma shr_spec (r : shr_record) (e n : Z) :
  0 <= shr_m r ->
  snd (shr r e n) = e + Z.max n 0
  /\ shr_m (fst (shr r e n)) = shr_m r / 2 ^ Z.max n 0
  /\ (exact_record r -> shr_m r mod 2 ^ Z.max n 0 = 0 -> exact_record (fst (shr r e n))).
Proof.
  intros Hm. destruct n as [| p | p]; cbn [shr fst snd].
  - rewrite Z.max_id, Z.add_0_r, Z.pow_0_r, Z.div_1_r. tauto.
  - rewrite Z.max_l by lia. rewrite iter_pos_nat.
    destruct (shr_iter_spec (Pos.to_nat p) r Hm) as [H1 H2].
    rewrite positive_nat_Z in H1, H2. tauto.
  - rewrite Z.max_r by lia. rewrite Z.add_0_r, Z.pow_0_r, Z.div_1_r. tauto.
Qed.

Lemma round_nearest_even_spec (r : shr_record) :
  shr_m r <= round_nearest_even (shr_m r) (loc_of_shr_record r) <= shr_m r + 1
  /\ (exact_record r -> round_nearest_even (shr_m r) (loc_of_shr_record r) = shr_m r).
Proof.
  destruct r as [m [|] [|]]; unfold exact_record; cbn; try destruct (Z.even m);
    (split; [lia | intros [? ?]; congruence || reflexivity]).
Qed.

Lemma canonical_mantissa_true (m : positive) (e : Z) :
  canonical_mantissa prec emax m e = true <-> canonical m e.
Proof. unfold canonical_mantissa, canonical. apply Z.eqb_eq. Qed.

Lemma canonical_bounds (m : positive) (e : Z) :
  canonical m e ->
  -1074 <= e /\ Zpos m < 2 ^ 53 /\ (-1074 < e -> 2 ^ 52 <= Zpos m).
Proof.
  unfold canonical. rewrite fexp_unfold. intros H.
  pose proof (digits2_pos_bounds m) as [Hlo Hhi].
  assert (Hd : Zpos (digits2_pos m) <= 53) by lia.
  split; [lia |]. split.
  - assert (2 ^ Zpos (digits2_pos m) <= 2 ^ 53) by (apply Z.pow_le_mono_r; lia). lia.
  - intros He. assert (Hd' : Zpos (digits2_pos m) = 53) by lia.
    rewrite Hd' in Hlo. exact Hlo.
Qed.

Lemma canonical_intro (m : positive) (e : Z) :
  -1074 <= e -> Zpos m < 2 ^ 53 -> (-1074 < e -> 2 ^ 52 <= Zpos m) -> canonical m e.
Proof.
  intros He Hm Hn. unfold canonical. rewrite fexp_unfold.
  pose proof (digits2_pos_bounds m) as [Hlo Hhi].
  assert (Hd : Zpos (digits2_pos m) <= 53).
  { destruct (Z.le_gt_cases (Zpos (digits2_pos m)) 53) as [|Hgt]; [assumption |].
    assert (2 ^ 53 <= 2 ^ (Zpos (digits2_pos m) - 1)) by (apply Z.pow_le_mono_r; lia). lia. }
  destruct (Z.eq_dec e (-1074)) as [-> | Hne]; [lia |].
  assert (H52 : 2 ^ 52 <= Zpos m) by (apply Hn; lia).
  assert (Zpos (digits2_pos m) = 53).
  { apply digits2_pos_unique. change (53 - 1) with 52. lia. }
  lia.
Qed.

(** What [binary_round_aux] makes of the exact value [X * 2^ex] when the
    target exponent [e1] is not below [ex]. *)
Lemma round_aux_spec (s : bool) (X : positive) (ex : Z) :
  let e1 := fexp prec emax (Zpos (digits2_pos X) + ex) in
  ex <= e1 ->
  exists q,
    Zpos X / 2 ^ (e1 - ex) <= q <= Zpos X / 2 ^ (e1 - ex) + 1
    /\ (Zpos X mod 2 ^ (e1 - ex) = 0 -> q = Zpos X / 2 ^ (e1 - ex))
    /\ ((q = 0 /\ binary_round_aux prec emax s (Zpos X) ex loc_Exact = S754_zero s)
        \/ exists m e,
             e1 <= e /\ Zpos m * 2 ^ (e - e1) = q /\ canonical m e
             /\ binary_round_aux prec emax s (Zpos X) ex loc_Exact =
                if e <=? emax - prec then S754_finite s m e else S754_infinity s).
Proof.
  intros e1 Hle.
  pose proof (digits2_pos_bounds X) as [Xlo Xhi].
  set (d := Zpos (digits2_pos X)) in *.
  assert (He1 : e1 = Z.max (d + ex - 53) (-1074)) by (subst e1; rewrite fexp_unfold; reflexivity).
  set (n := e1 - ex).
  assert (Hn : 0 <= n) by (subst n; lia).
  assert (H2n : 0 < 2 ^ n) by (apply Z.pow_pos_nonneg; lia).
  unfold binary_round_aux, shr_fexp.
  change (Zdigits2 (Zpos X)) with d. fold e1. fold n.
  set (r0 := shr_record_of_loc (Zpos X) loc_Exact).
  assert (Hr0 : 0 <= shr_m r0) by (cbn; lia).
  destruct (shr_spec r0 ex n Hr0) as (Hs1 & Hs2 & Hs3).
  destruct (shr r0 ex n) as [r1 e1'] eqn:Eshr. cbn [fst snd] in Hs1, Hs2, Hs3.
  rewrite Z.max_l in Hs1, Hs2, Hs3 by lia.
  change (shr_m r0) with (Zpos X) in Hs2, Hs3.
  assert (e1' = e1) as -> by (subst n; lia). clear Hs1.
  destruct (round_nearest_even_spec r1) as [Hq1 Hq2].
  set (q := round_nearest_even (shr_m r1) (loc_of_shr_record r1)) in *.
  rewrite Hs2 in Hq1, Hq2.
  exists q. split; [exact Hq1 |]. split.
  { intros Hmod. apply Hq2, Hs3; [split; reflexivity | exact Hmod]. }
  assert (Hq0 : 0 <= q).
  { assert (0 <= Zpos X / 2 ^ n) by (apply Z.div_pos; lia). lia. }
  (* the mantissa before rounding has at most 53 bits *)
  assert (Hm1 : Zpos X / 2 ^ n < 2 ^ 53).
  { apply Z.div_lt_upper_bound; [lia |].
    rewrite <- Z.pow_add_r by lia.
    assert (2 ^ d <= 2 ^ (n + 53)) by (apply Z.pow_le_mono_r; subst n; lia). lia. }
  assert (Hmin : -1074 <= e1) by lia.
  destruct q as [| pq | pq] eqn:Eq; [left | right | lia].
  - split; [reflexivity |].
    cbn [Zdigits2]. rewrite fexp_unfold.
    assert (Hk : Z.max (0 + e1 - 53) (-1074) - e1 <= 0) by lia.
    destruct (Z.max (0 + e1 - 53) (-1074) - e1); [reflexivity | lia | reflexivity].
  - (* normal range: the mantissa before rounding has exactly 53 bits *)
    assert (Hnorm : -1074 < e1 -> 2 ^ 52 <= Zpos X / 2 ^ n).
    { intros Hgt. assert (Hnd : n = d - 53) by (subst n; lia).
      apply Z.div_le_lower_bound; [lia |].
      rewrite Z.mul_comm, <- Z.pow_add_r by lia.
      replace (52 + n) with (d - 1) by lia. exact Xlo. }
    destruct (Z.eq_dec (Zpos pq) (2 ^ 53)) as [Hcarry | Hnocarry].
    + (* rounding carried into a 54th bit: one more shift, exactly *)
      exists (Pos.pow 2 52), (e1 + 1).
      assert (Hd54 : Zpos (digits2_pos pq) = 54).
      { apply digits2_pos_unique. rewrite Hcarry. change (54 - 1) with 53.
        split; [lia |]. apply Z.pow_lt_mono_r; lia. }
      split; [lia |]. split.
      { replace (e1 + 1 - e1) with 1 by lia. rewrite Hcarry. reflexivity. }
      split.
      { apply canonical_intro; [lia | reflexivity | intros _; reflexivity]. }
      cbn [Zdigits2]. rewrite Hd54, fexp_unfold.
      replace (Z.max (54 + e1 - 53) (-1074) - e1) with 1 by lia.
      cbn [shr SpecFloat.iter_pos shr_record_of_loc].
      injection Hcarry as ->. reflexivity.
    + exists pq, e1.
      assert (Hlt : Zpos pq < 2 ^ 53) by lia.
      assert (Hcan : canonical pq e1).
      { apply canonical_intro; [lia | exact Hlt | intros Hgt; specialize (Hnorm Hgt); lia]. }
      split; [lia |]. split; [rewrite Z.sub_diag; cbn; lia |]. split; [exact Hcan |].
      cbn [Zdigits2]. unfold canonical in Hcan. rewrite Hcan, Z.sub_diag.
      reflexivity.
Qed.

Lemma pow2_pos (a : Z) : 0 <= a -> 0 < 2 ^ a.
Proof. intros. apply Z.pow_pos_nonneg; lia. Qed.

Lemma pow2_split (a b : Z) : 0 <= a -> 0 <= b -> 2 ^ (a + b) = 2 ^ a * 2 ^ b.
Proof. intros. apply Z.pow_add_r; assumption. Qed.

Lemma grid_upper (X d ex e1 q mb eb K : Z) :
  2 ^ (d - 1) <= X < 2 ^ d ->
  e1 = Z.max (d + ex - 53) (-1074) -> ex <= e1 -> 0 <= ex + K ->
  q <= X / 2 ^ (e1 - ex) + 1 ->
  (X mod 2 ^ (e1 - ex) = 0 -> q = X / 2 ^ (e1 - ex)) ->
  -1074 <= eb -> 0 <= eb + K -> 0 < mb < 2 ^ 53 ->
  dyadic K X ex <= dyadic K mb eb ->
  dyadic K q e1 <= dyadic K mb eb.
Proof.
  unfold dyadic. intros [Xlo Xhi] He1 Hle HK Hq Hexact Heb HKb Hmb Hval.
  set (n := e1 - ex) in *. assert (Hn : 0 <= n) by (subst n; lia).
  pose proof (pow2_pos n Hn) as H2n. pose proof (pow2_pos (ex + K) HK) as HP.
  replace (e1 + K) with (n + (ex + K)) by (subst n; lia).
  rewrite (pow2_split n (ex + K)) by lia.
  destruct (Z.le_gt_cases e1 eb) as [Hcase | Hcase].
  - replace (eb + K) with ((eb - e1) + (n + (ex + K))) in * by (subst n; lia).
    rewrite (pow2_split (eb - e1) (n + (ex + K))), (pow2_split n (ex + K)) in * by lia.
    pose proof (pow2_pos (eb - e1) ltac:(lia)) as Hz.
    set (z := mb * 2 ^ (eb - e1)).
    assert (HXz : X <= z * 2 ^ n).
    { apply Z.mul_le_mono_pos_r with (2 ^ (ex + K)); [exact HP |]. subst z. lia. }
    assert (Hqz : q <= z).
    { pose proof (Z.div_mod X (2 ^ n) ltac:(lia)) as Hdm.
      pose proof (Z.mod_pos_bound X (2 ^ n) H2n) as Hmb'.
      destruct (Z.eq_dec (X mod 2 ^ n) 0) as [H0 | Hne].
      - rewrite (Hexact H0). nia.
      - assert (X / 2 ^ n < z) by nia. lia. }
    replace (mb * (2 ^ (eb - e1) * (2 ^ n * 2 ^ (ex + K)))) with (z * (2 ^ n * 2 ^ (ex + K)))
      by (subst z; ring).
    apply Z.mul_le_mono_nonneg_r; [nia | exact Hqz].
  - exfalso.
    assert (Hnd : n = d - 53) by (subst n; lia).
    assert (HXP : 2 ^ (n + 52) * 2 ^ (ex + K) <= X * 2 ^ (ex + K)).
    { apply Z.mul_le_mono_nonneg_r; [lia |]. replace (n + 52) with (d - 1) by lia. exact Xlo. }
    assert (Hb : mb * 2 ^ (eb + K) < 2 ^ 53 * 2 ^ (eb + K)).
    { apply Z.mul_lt_mono_pos_r; [apply pow2_pos; lia | lia]. }
    assert (Hc : 2 ^ 53 * 2 ^ (eb + K) <= 2 ^ (n + 52) * 2 ^ (ex + K)).
    { rewrite <- !pow2_split by lia. apply Z.pow_le_mono_r; subst n; lia. }
    lia.
Qed.

Lemma grid_lower (X d ex e1 q ma ea K : Z) :
  2 ^ (d - 1) <= X < 2 ^ d ->
  e1 = Z.max (d + ex - 53) (-1074) -> ex <= e1 -> 0 <= ex + K ->
  X / 2 ^ (e1 - ex) <= q ->
  -1074 <= ea -> 0 <= ea + K -> 0 < ma < 2 ^ 53 ->
  dyadic K ma ea <= dyadic K X ex ->
  dyadic K ma ea <= dyadic K q e1.
Proof.
  unfold dyadic. intros [Xlo Xhi] He1 Hle HK Hq Hea HKa Hma Hval.
  set (n := e1 - ex) in *. assert (Hn : 0 <= n) by (subst n; lia).
  pose proof (pow2_pos n Hn) as H2n. pose proof (pow2_pos (ex + K) HK) as HP.
  replace (e1 + K) with (n + (ex + K)) by (subst n; lia).
  rewrite (pow2_split n (ex + K)) by lia.
  destruct (Z.le_gt_cases e1 ea) as [Hcase | Hcase].
  - replace (ea + K) with ((ea - e1) + (n + (ex + K))) in * by (subst n; lia).
    rewrite (pow2_split (ea - e1) (n + (ex + K))), (pow2_split n (ex + K)) in * by lia.
    pose proof (pow2_pos (ea - e1) ltac:(lia)) as Hz.
    set (z := ma * 2 ^ (ea - e1)).
    assert (HXz : z * 2 ^ n <= X).
    { apply Z.mul_le_mono_pos_r with (2 ^ (ex + K)); [exact HP |]. subst z. lia. }
    assert (Hqz : z <= q).
    { assert (z <= X / 2 ^ n) by (apply Z.div_le_lower_bound; lia). lia. }
    replace (ma * (2 ^ (ea - e1) * (2 ^ n * 2 ^ (ex + K)))) with (z * (2 ^ n * 2 ^ (ex + K)))
      by (subst z; ring).
    apply Z.mul_le_mono_nonneg_r; [nia | exact Hqz].
  - assert (Hnd : n = d - 53) by (subst n; lia).
    assert (H52 : 2 ^ 52 <= q).
    { assert (2 ^ 52 <= X / 2 ^ n); [| lia].
      apply Z.div_le_lower_bound; [lia |].
      rewrite Z.mul_comm, <- pow2_split by lia.
      replace (52 + n) with (d - 1) by lia. exact Xlo. }
    assert (Ha : ma * 2 ^ (ea + K) <= 2 ^ 53 * 2 ^ (ea + K)).
    { apply Z.mul_le_mono_nonneg_r; [apply Z.lt_le_incl, pow2_pos; lia | lia]. }
    assert (Hc : 2 ^ 53 * 2 ^ (ea + K) <= 2 ^ 52 * (2 ^ n * 2 ^ (ex + K))).
    { rewrite <- !pow2_split by lia. apply Z.pow_le_mono_r; subst n; lia. }
    assert (2 ^ 52 * (2 ^ n * 2 ^ (ex + K)) <= q * (2 ^ n * 2 ^ (ex + K))).
    { apply Z.mul_le_mono_nonneg_r; [nia | exact H52]. }
    lia.
Qed.

Lemma dyadic_exponent_lt (K m1 e1 m2 e2 : Z) :
  0 <= e1 + K -> m1 < 2 ^ 53 -> 2 ^ 52 <= m2 -> e1 < e2 ->
  dyadic K m1 e1 < dyadic K m2 e2.
Proof.
  unfold dyadic. intros HK H1 H2 He.
  pose proof (pow2_pos (e1 + K) HK) as HP.
  replace (e2 + K) with ((e2 - e1 - 1) + (1 + (e1 + K))) by lia.
  rewrite (pow2_split (e2 - e1 - 1)), (pow2_split 1) by lia.
  pose proof (pow2_pos (e2 - e1 - 1) ltac:(lia)) as HQ.
  change (2 ^ 1) with 2.
  assert (A1 : m1 * 2 ^ (e1 + K) < 2 ^ 53 * 2 ^ (e1 + K)).
  { apply Z.mul_lt_mono_pos_r; assumption. }
  assert (A2 : 2 ^ 52 * (2 * 2 ^ (e1 + K)) <= m2 * (2 * 2 ^ (e1 + K))).
  { apply Z.mul_le_mono_nonneg_r; [lia | assumption]. }
  assert (A3 : m2 * (2 * 2 ^ (e1 + K)) * 1 <= m2 * (2 * 2 ^ (e1 + K)) * 2 ^ (e2 - e1 - 1)).
  { apply Z.mul_le_mono_nonneg_l; [| lia].
    apply Z.mul_nonneg_nonneg; [| lia]. assert (0 < 2 ^ 52) by reflexivity. lia. }
  change (2 ^ 53) with (2 * 2 ^ 52) in A1. lia.
Qed.

(** On canonical positive floats the comparison of [SpecFloat] is the
    comparison of the values. *)
Lemma SFcompare_canonical (K : Z) (m1 : positive) (e1 : Z) (m2 : positive) (e2 : Z) :
  canonical m1 e1 -> canonical m2 e2 -> 1074 <= K ->
  SFcompare (S754_finite false m1 e1) (S754_finite false m2 e2) =
  Some (dyadic K (Zpos m1) e1 ?= dyadic K (Zpos m2) e2).
Proof.
  intros C1 C2 HK.
  destruct (canonical_bounds _ _ C1) as (E1 & U1 & N1).
  destruct (canonical_bounds _ _ C2) as (E2 & U2 & N2).
  cbn [SFcompare]. f_equal.
  destruct (Z.compare_spec e1 e2) as [-> | Hlt | Hgt].
  - unfold dyadic. pose proof (pow2_pos (e2 + K) ltac:(lia)) as HP.
    rewrite Pos.compare_cont_spec. cbn [Pos.switch_Eq].
    destruct (Pos.compare_spec m1 m2) as [-> | Hlt | Hgt]; symmetry.
    + apply Z.compare_refl.
    + apply Z.compare_lt_iff, Z.mul_lt_mono_pos_r; lia.
    + apply Z.compare_gt_iff, Z.mul_lt_mono_pos_r; lia.
  - symmetry. apply Z.compare_lt_iff, dyadic_exponent_lt; lia.
  - symmetry. apply Z.compare_gt_iff, dyadic_exponent_lt; lia.
Qed.

Lemma SFleb_canonical (K : Z) (m1 : positive) (e1 : Z) (m2 : positive) (e2 : Z) :
  canonical m1 e1 -> canonical m2 e2 -> 1074 <= K ->
  SFleb (S754_finite false m1 e1) (S754_finite false m2 e2) = true <->
  dyadic K (Zpos m1) e1 <= dyadic K (Zpos m2) e2.
Proof.
  intros C1 C2 HK. unfold SFleb. rewrite (SFcompare_canonical K) by assumption.
  destruct (Z.compare_spec (dyadic K (Zpos m1) e1) (dyadic K (Zpos m2) e2));
    split; intros; try lia; try reflexivity; discriminate.
Qed.

Lemma SFltb_canonical (K : Z) (m1 : positive) (e1 : Z) (m2 : positive) (e2 : Z) :
  canonical m1 e1 -> canonical m2 e2 -> 1074 <= K ->
  SFltb (S754_finite false m1 e1) (S754_finite false m2 e2) = true <->
  dyadic K (Zpos m1) e1 < dyadic K (Zpos m2) e2.
Proof.
  intros C1 C2 HK. unfold SFltb. rewrite (SFcompare_canonical K) by assumption.
  destruct (Z.compare_spec (dyadic K (Zpos m1) e1) (dyadic K (Zpos m2) e2));
    split; intros; try lia; try reflexivity; discriminate.
Qed.

Lemma representable_bounded (m : positive) (e : Z) :
  bounded prec emax m e = true <-> representable m e.
Proof.
  unfold bounded, representable. rewrite andb_true_iff, canonical_mantissa_true, Z.leb_le.
  reflexivity.
Qed.

(** [round_aux_spec] in terms of values. *)
Lemma round_aux_value (K : Z) (s : bool) (X : positive) (ex : Z) :
  let e1 := fexp prec emax (Zpos (digits2_pos X) + ex) in
  ex <= e1 -> 0 <= ex + K -> 1074 <= K ->
  exists q,
    Zpos X / 2 ^ (e1 - ex) <= q <= Zpos X / 2 ^ (e1 - ex) + 1
    /\ (Zpos X mod 2 ^ (e1 - ex) = 0 -> q = Zpos X / 2 ^ (e1 - ex))
    /\ ((q = 0 /\ binary_round_aux prec emax s (Zpos X) ex loc_Exact = S754_zero s)
        \/ exists m e,
             canonical m e /\ dyadic K (Zpos m) e = dyadic K q e1
             /\ binary_round_aux prec emax s (Zpos X) ex loc_Exact =
                if e <=? 971 then S754_finite s m e else S754_infinity s).
Proof.
  intros e1 Hle HKx HK.
  destruct (round_aux_spec s X ex Hle) as (q & Hq & Hexact & Hres).
  fold e1 in Hq, Hexact, Hres.
  assert (He1 : e1 = Z.max (Zpos (digits2_pos X) + ex - 53) (-1074))
    by (subst e1; apply fexp_unfold).
  exists q. split; [exact Hq |]. split; [exact Hexact |].
  destruct Hres as [Hz | (m & e & He & Hm & Cm & Hr)]; [left; exact Hz | right].
  exists m, e. split; [exact Cm |]. split; [| exact Hr].
  unfold dyadic. rewrite <- Hm. replace (e + K) with ((e - e1) + (e1 + K)) by lia.
  rewrite (pow2_split (e - e1)) by lia. ring.
Qed.

Lemma finite_below_bound (K : Z) (s : bool) (m : positive) (e : Z) (mb : positive) (eb : Z) :
  1074 <= K -> canonical m e -> representable mb eb ->
  dyadic K (Zpos m) e <= dyadic K (Zpos mb) eb ->
  (if e <=? 971 then S754_finite s m e else S754_infinity s) = S754_finite s m e
  /\ representable m e.
Proof.
  intros HK Cm [Cb Hb] Hle.
  destruct (canonical_bounds _ _ Cb) as (Eb & Ub & Nb).
  destruct (canonical_bounds _ _ Cm) as (Em & Um & Nm).
  assert (He971 : e <= 971).
  { destruct (Z.le_gt_cases e 971) as [|Hgt]; [assumption | exfalso].
    assert (dyadic K (Zpos mb) eb < dyadic K (Zpos m) e).
    { apply dyadic_exponent_lt; lia. }
    lia. }
  split; [| split; assumption].
  replace (e <=? 971) with true; [reflexivity |]. symmetry. apply Z.leb_le. exact He971.
Qed.

(** Rounding keeps a value below a representable bound; it may round a
    tiny value to zero. *)
Lemma round_aux_upper (K : Z) (s : bool) (X : positive) (ex : Z) (mb : positive) (eb : Z) :
  ex <= fexp prec emax (Zpos (digits2_pos X) + ex) ->
  0 <= ex + K -> 1074 <= K -> representable mb eb ->
  dyadic K (Zpos X) ex <= dyadic K (Zpos mb) eb ->
  binary_round_aux prec emax s (Zpos X) ex loc_Exact = S754_zero s
  \/ exists m e,
       binary_round_aux prec emax s (Zpos X) ex loc_Exact = S754_finite s m e
       /\ representable m e
       /\ dyadic K (Zpos m) e <= dyadic K (Zpos mb) eb.
Proof.
  intros Hle HKx HK Rb Hval.
  destruct (round_aux_value K s X ex Hle HKx HK)
    as (q & Hq & Hexact & [[_ Hz] | (m & e & Cm & Hm & Hr)]); [left; exact Hz | right].
  set (e1 := fexp prec emax (Zpos (digits2_pos X) + ex)) in *.
  assert (He1 : e1 = Z.max (Zpos (digits2_pos X) + ex - 53) (-1074))
    by (subst e1; apply fexp_unfold).
  destruct (canonical_bounds _ _ (proj1 Rb)) as (Eb & Ub & Nb).
  assert (Hup : dyadic K (Zpos m) e <= dyadic K (Zpos mb) eb).
  { rewrite Hm.
    apply (grid_upper (Zpos X) (Zpos (digits2_pos X)) ex e1 q (Zpos mb) eb K);
      try lia; try assumption.
    apply digits2_pos_bounds. }
  destruct (finite_below_bound K s m e mb eb HK Cm Rb Hup) as [Hfin Rm].
  exists m, e. rewrite Hr, Hfin. auto.
Qed.

(** Rounding keeps a value between representable bounds. *)
Lemma round_aux_between (K : Z) (s : bool) (X : positive) (ex : Z)
    (ma : positive) (ea : Z) (mb : positive) (eb : Z) :
  ex <= fexp prec emax (Zpos (digits2_pos X) + ex) ->
  0 <= ex + K -> 1074 <= K -> canonical ma ea -> representable mb eb ->
  dyadic K (Zpos ma) ea <= dyadic K (Zpos X) ex <= dyadic K (Zpos mb) eb ->
  exists m e,
    binary_round_aux prec emax s (Zpos X) ex loc_Exact = S754_finite s m e
    /\ representable m e
    /\ dyadic K (Zpos ma) ea <= dyadic K (Zpos m) e <= dyadic K (Zpos mb) eb.
Proof.
  intros Hle HKx HK Ca Rb [Hlo Hhi].
  destruct (round_aux_value K s X ex Hle HKx HK) as (q & Hq & Hexact & Hres).
  set (e1 := fexp prec emax (Zpos (digits2_pos X) + ex)) in *.
  assert (He1 : e1 = Z.max (Zpos (digits2_pos X) + ex - 53) (-1074))
    by (subst e1; apply fexp_unfold).
  destruct (canonical_bounds _ _ Ca) as (Ea & Ua & Na).
  destruct (canonical_bounds _ _ (proj1 Rb)) as (Eb & Ub & Nb).
  assert (Hqlo : dyadic K (Zpos ma) ea <= dyadic K q e1).
  { apply (grid_lower (Zpos X) (Zpos (digits2_pos X)) ex e1 q (Zpos ma) ea K);
      try lia; try assumption.
    apply digits2_pos_bounds. }
  assert (Hqhi : dyadic K q e1 <= dyadic K (Zpos mb) eb).
  { apply (grid_upper (Zpos X) (Zpos (digits2_pos X)) ex e1 q (Zpos mb) eb K);
      try lia; try assumption.
    apply digits2_pos_bounds. }
  assert (Hapos : 0 < dyadic K (Zpos ma) ea).
  { unfold dyadic. apply Z.mul_pos_pos; [lia | apply pow2_pos; lia]. }
  destruct Hres as [[Hq0 _] | (m & e & Cm & Hm & Hr)].
  { exfalso. rewrite Hq0 in Hqlo. unfold dyadic in Hqlo at 2. lia. }
  rewrite <- Hm in Hqlo, Hqhi.
  destruct (finite_below_bound K s m e mb eb HK Cm Rb Hqhi) as [Hfin Rm].
  exists m, e. rewrite Hr, Hfin. auto.
Qed.

Lemma iter_xO_value (m d : positive) : Zpos (Pos.iter xO m d) = Zpos m * 2 ^ Zpos d.
Proof.
  induction d as [| d IH] using Pos.peano_ind.
  - cbn [Pos.iter]. rewrite Pos2Z.inj_xO. change (2 ^ 1) with 2. ring.
  - rewrite Pos.iter_succ, Pos2Z.inj_xO, IH, Pos2Z.inj_succ, Z.pow_succ_r by lia. ring.
Qed.

Lemma shl_align_spec (mx : positive) (ex ex' : Z) :
  snd (shl_align mx ex ex') = Z.min ex ex'
  /\ Zpos (fst (shl_align mx ex ex')) = Zpos mx * 2 ^ (ex - Z.min ex ex').
Proof.
  unfold shl_align. destruct (ex' - ex) as [| d | d] eqn:E; cbn [fst snd].
  - rewrite Z.min_l by lia. rewrite Z.sub_diag. split; [reflexivity | cbn; lia].
  - rewrite Z.min_l by lia. rewrite Z.sub_diag. split; [reflexivity | cbn; lia].
  - rewrite Z.min_r by lia. split; [reflexivity |].
    rewrite iter_xO_value. f_equal. f_equal. lia.
Qed.

Lemma digits2_pos_shift (m : positive) (k : Z) (m' : positive) :
  0 <= k -> Zpos m' = Zpos m * 2 ^ k ->
  Zpos (digits2_pos m') = Zpos (digits2_pos m) + k.
Proof.
  intros Hk Hm'. apply digits2_pos_unique. rewrite Hm'.
  pose proof (digits2_pos_bounds m) as [Hlo Hhi].
  pose proof (pow2_pos k Hk) as HP.
  replace (Zpos (digits2_pos m) + k - 1) with ((Zpos (digits2_pos m) - 1) + k) by lia.
  rewrite !pow2_split by lia. split.
  - apply Z.mul_le_mono_nonneg_r; lia.
  - apply Z.mul_lt_mono_pos_r; lia.
Qed.

(** [binary_round] first aligns the mantissa so that rounding only ever
    drops bits. *)
Lemma binary_round_between (K : Z) (s : bool) (mz : positive) (ez : Z)
    (ma : positive) (ea : Z) (mb : positive) (eb : Z) :
  0 <= ez + K -> 1074 <= K -> canonical ma ea -> representable mb eb ->
  dyadic K (Zpos ma) ea <= dyadic K (Zpos mz) ez <= dyadic K (Zpos mb) eb ->
  exists m e,
    binary_round prec emax s mz ez = S754_finite s m e
    /\ representable m e
    /\ dyadic K (Zpos ma) ea <= dyadic K (Zpos m) e <= dyadic K (Zpos mb) eb.
Proof.
  intros HKz HK Ca Rb Hval. unfold binary_round.
  set (e0 := fexp prec emax (Zpos (digits2_pos mz) + ez)).
  assert (He0 : e0 = Z.max (Zpos (digits2_pos mz) + ez - 53) (-1074))
    by (subst e0; apply fexp_unfold).
  destruct (shl_align_spec mz ez e0) as [Hs1 Hs2].
  destruct (shl_align mz ez e0) as [mz' ez']. cbn [fst snd] in Hs1, Hs2.
  assert (Hk : 0 <= ez - ez') by lia.
  assert (Hd : Zpos (digits2_pos mz') = Zpos (digits2_pos mz) + (ez - ez'))
    by (apply digits2_pos_shift; [exact Hk | rewrite Hs1; exact Hs2]).
  rewrite <- Hs1 in Hs2.
  assert (Hsame : dyadic K (Zpos mz') ez' = dyadic K (Zpos mz) ez).
  { unfold dyadic. rewrite Hs2. replace (ez + K) with ((ez - ez') + (ez' + K)) by lia.
    rewrite (pow2_split (ez - ez')) by lia. ring. }
  rewrite <- Hsame in Hval.
  apply (round_aux_between K s mz' ez' ma ea mb eb); try assumption; try lia.
  rewrite fexp_unfold, Hd. lia.
Qed.

Lemma digits2_pos_mul (mx my : positive) :
  Zpos (digits2_pos mx) + Zpos (digits2_pos my) - 1 <= Zpos (digits2_pos (mx * my)).
Proof.
  pose proof (digits2_pos_bounds mx) as [Hx _].
  pose proof (digits2_pos_bounds my) as [Hy _].
  pose proof (digits2_pos_bounds (mx * my)) as [_ Hxy].
  rewrite Pos2Z.inj_mul in Hxy.
  set (dx := Zpos (digits2_pos mx)) in *. set (dy := Zpos (digits2_pos my)) in *.
  set (d := Zpos (digits2_pos (mx * my))) in *.
  destruct (Z.le_gt_cases (dx + dy - 1) d) as [|Hgt]; [assumption | exfalso].
  assert (H1 : 2 ^ (dx - 1) * 2 ^ (dy - 1) <= Zpos mx * Zpos my).
  { apply Z.mul_le_mono_nonneg; try assumption; apply Z.lt_le_incl, pow2_pos; subst dx dy; lia. }
  rewrite <- pow2_split in H1 by (subst dx dy; lia).
  assert (2 ^ d <= 2 ^ (dx - 1 + (dy - 1))) by (apply Z.pow_le_mono_r; subst d; lia).
  lia.
Qed.

(** The product of two positive floats stays below a representable bound
    of the exact product. *)
Lemma SFmul_upper (K : Z) (mx : positive) (ex : Z) (my : positive) (ey : Z)
    (mb : positive) (eb : Z) :
  canonical mx ex -> canonical my ey -> 2148 <= K -> representable mb eb ->
  dyadic K (Zpos mx * Zpos my) (ex + ey) <= dyadic K (Zpos mb) eb ->
  SFmul prec emax (S754_finite false mx ex) (S754_finite false my ey) = S754_zero false
  \/ exists m e,
       SFmul prec emax (S754_finite false mx ex) (S754_finite false my ey) =
         S754_finite false m e
       /\ representable m e
       /\ dyadic K (Zpos m) e <= dyadic K (Zpos mb) eb.
Proof.
  intros Cx Cy HK Rb Hval. cbn [SFmul xorb].
  destruct (canonical_bounds _ _ Cx) as (Ex & Ux & Nx).
  destruct (canonical_bounds _ _ Cy) as (Ey & Uy & Ny).
  apply round_aux_upper; try assumption; try lia.
  rewrite fexp_unfold.
  pose proof (digits2_pos_mul mx my) as Hd.
  unfold canonical in Cx, Cy. rewrite fexp_unfold in Cx, Cy. lia.
Qed.

Lemma dyadic_aligned (K : Z) (mx : positive) (ex ez : Z) :
  ez <= ex -> 0 <= ez + K ->
  dyadic K (Zpos (fst (shl_align mx ex ez))) ez = dyadic K (Zpos mx) ex.
Proof.
  intros Hle HK. destruct (shl_align_spec mx ex ez) as [_ Hm].
  rewrite Z.min_r in Hm by exact Hle.
  unfold dyadic. rewrite Hm. replace (ex + K) with ((ex - ez) + (ez + K)) by lia.
  rewrite (pow2_split (ex - ez)) by lia. ring.
Qed.

(** The sum of two positive floats stays between representable bounds of
    the exact sum. *)
Lemma SFadd_between (K : Z) (mx : positive) (ex : Z) (my : positive) (ey : Z)
    (ma : positive) (ea : Z) (mb : positive) (eb : Z) :
  0 <= ex + K -> 0 <= ey + K -> 1074 <= K -> canonical ma ea -> representable mb eb ->
  dyadic K (Zpos ma) ea <= dyadic K (Zpos mx) ex + dyadic K (Zpos my) ey
    <= dyadic K (Zpos mb) eb ->
  exists m e,
    SFadd prec emax (S754_finite false mx ex) (S754_finite false my ey) =
      S754_finite false m e
    /\ representable m e
    /\ dyadic K (Zpos ma) ea <= dyadic K (Zpos m) e <= dyadic K (Zpos mb) eb.
Proof.
  intros HKx HKy HK Ca Rb Hval. cbn [SFadd cond_Zopp].
  set (ez := Z.min ex ey).
  pose proof (dyadic_aligned K mx ex ez ltac:(lia) ltac:(lia)) as Hx.
  pose proof (dyadic_aligned K my ey ez ltac:(lia) ltac:(lia)) as Hy.
  set (mx' := fst (shl_align mx ex ez)) in *. set (my' := fst (shl_align my ey ez)) in *.
  change (Zpos mx' + Zpos my') with (Zpos (mx' + my')). cbn [binary_normalize].
  apply binary_round_between; try assumption; try lia.
  replace (dyadic K (Zpos (mx' + my')) ez) with (dyadic K (Zpos mx') ez + dyadic K (Zpos my') ez)
    by (unfold dyadic; rewrite Pos2Z.inj_add; ring).
  rewrite Hx, Hy. exact Hval.
Qed.

(** The difference of two positive floats, the larger first, stays between
    representable bounds of the exact difference. *)
Lemma SFsub_between (K : Z) (mx : positive) (ex : Z) (my : positive) (ey : Z)
    (ma : positive) (ea : Z) (mb : positive) (eb : Z) :
  0 <= ex + K -> 0 <= ey + K -> 1074 <= K -> canonical ma ea -> representable mb eb ->
  dyadic K (Zpos ma) ea <= dyadic K (Zpos mx) ex - dyadic K (Zpos my) ey
    <= dyadic K (Zpos mb) eb ->
  exists m e,
    SFsub prec emax (S754_finite false mx ex) (S754_finite false my ey) =
      S754_finite false m e
    /\ representable m e
    /\ dyadic K (Zpos ma) ea <= dyadic K (Zpos m) e <= dyadic K (Zpos mb) eb.
Proof.
  intros HKx HKy HK Ca Rb Hval. cbn [SFsub cond_Zopp].
  set (ez := Z.min ex ey).
  pose proof (dyadic_aligned K mx ex ez ltac:(lia) ltac:(lia)) as Hx.
  pose proof (dyadic_aligned K my ey ez ltac:(lia) ltac:(lia)) as Hy.
  set (mx' := fst (shl_align mx ex ez)) in *. set (my' := fst (shl_align my ey ez)) in *.
  destruct (canonical_bounds _ _ Ca) as (Ea & _ & _).
  assert (Hapos : 0 < dyadic K (Zpos ma) ea).
  { unfold dyadic. apply Z.mul_pos_pos; [lia | apply pow2_pos; lia]. }
  assert (Hdiff : dyadic K (Zpos mx' - Zpos my') ez =
                  dyadic K (Zpos mx) ex - dyadic K (Zpos my) ey).
  { rewrite <- Hx, <- Hy. unfold dyadic. ring. }
  assert (Hpos : 0 < Zpos mx' - Zpos my').
  { pose proof (pow2_pos (ez + K) ltac:(lia)) as HP.
    assert (H0 : 0 < dyadic K (Zpos mx' - Zpos my') ez) by (rewrite Hdiff; lia).
    unfold dyadic in H0. apply (Z.mul_pos_cancel_r _ _ HP). exact H0. }
  destruct (Zpos mx' - Zpos my') as [| mz | mz] eqn:E; try lia.
  cbn [binary_normalize].
  apply binary_round_between; try assumption; lia.
Qed.

(** Scaling by a factor below one lowers the value. *)
Lemma dyadic_mul_below_one (K K2 mr er mu eu : Z) :
  0 <= er + K2 -> 0 <= eu + K -> 52 <= K -> 0 < mr ->
  dyadic K mu eu < dyadic K (2 ^ 52) (-52) ->
  dyadic (K2 + K) (mr * mu) (er + eu) <= dyadic (K2 + K) mr er.
Proof.
  unfold dyadic. intros H1 H2 HK Hr Hu.
  replace (er + eu + (K2 + K)) with ((er + K2) + (eu + K)) by lia.
  replace (er + (K2 + K)) with ((er + K2) + K) by lia.
  rewrite (pow2_split (er + K2) (eu + K)), (pow2_split (er + K2) K) by lia.
  rewrite <- (pow2_split 52 (-52 + K)) in Hu by lia.
  replace (52 + (-52 + K)) with K in Hu by lia.
  pose proof (pow2_pos (er + K2) H1) as HP.
  assert (G : mr * 2 ^ (er + K2) * (mu * 2 ^ (eu + K)) <= mr * 2 ^ (er + K2) * 2 ^ K).
  { apply Z.mul_le_mono_nonneg_l; [| lia]. apply Z.mul_nonneg_nonneg; lia. }
  lia.
Qed.

Lemma dyadic_rebase (K m e e0 : Z) :
  e0 <= e -> 0 <= e0 + K -> dyadic K m e = m * 2 ^ (e - e0) * 2 ^ (e0 + K).
Proof.
  intros He HK. unfold dyadic. replace (e + K) with ((e - e0) + (e0 + K)) by lia.
  rewrite (pow2_split (e - e0)) by lia. ring.
Qed.

Lemma valid_representable (x : float) (s : bool) (m : positive) (e : Z) :
  Prim2SF x = S754_finite s m e -> representable m e.
Proof.
  intros Hx. pose proof (Prim2SF_valid x) as Hv. rewrite Hx in Hv.
  apply representable_bounded. exact Hv.
Qed.

(** A double of the unit interval is a zero or a positive finite number
    below one. *)
Lemma unit_interval_cases (K : Z) (u : float) :
  1074 <= K -> (0 <=? u)%float = true -> (u <? 1)%float = true ->
  (exists s, Prim2SF u = S754_zero s)
  \/ exists m e,
       Prim2SF u = S754_finite false m e /\ canonical m e
       /\ dyadic K (Zpos m) e < dyadic K (2 ^ 52) (-52).
Proof.
  intros HK H0 H1. rewrite leb_spec in H0. rewrite ltb_spec in H1.
  change (Prim2SF 0) with (S754_zero false) in H0.
  change (Prim2SF 1) with (S754_finite false 4503599627370496 (-52)) in H1.
  destruct (Prim2SF u) as [s | s | | s m e] eqn:Eu.
  - left. exists s. reflexivity.
  - destruct s; discriminate.
  - discriminate.
  - right. destruct s; [discriminate |].
    destruct (valid_representable u false m e Eu) as [Cm _].
    exists m, e. split; [reflexivity |]. split; [exact Cm |].
    apply (SFltb_canonical K) in H1; [exact H1 | exact Cm | | exact HK].
    apply canonical_intro; [lia | reflexivity | intros _; reflexivity].
Qed.

(** The similarity drawn from a unit-interval double is a finite number
    between 0.3 and 0.95. *)
Lemma similarity_finite (K : Z) (u : float) :
  2148 <= K -> (0 <=? u)%float = true -> (u <? 1)%float = true ->
  exists m e,
    Prim2SF (0.3 + (0.95 - 0.3) * u)%float = S754_finite false m e
    /\ representable m e
    /\ dyadic K 5404319552844595 (-54) <= dyadic K (Zpos m) e
         <= dyadic K 8556839292003942 (-53).
Proof.
  intros HK H0 H1.
  assert (C03 : canonical 5404319552844595 (-54)) by reflexivity.
  assert (C095 : representable 8556839292003942 (-53)) by (split; [reflexivity | lia]).
  assert (Cr : representable 5854679515581644 (-53)) by (split; [reflexivity | lia]).
  rewrite add_spec, mul_spec.
  change (Prim2SF 0.3) with (S754_finite false 5404319552844595 (-54)).
  change (Prim2SF (0.95 - 0.3)) with (S754_finite false 5854679515581644 (-53)).
  assert (Hsame : exists m e,
            S754_finite false 5404319552844595 (-54) = S754_finite false m e
            /\ representable m e
            /\ dyadic K 5404319552844595 (-54) <= dyadic K (Zpos m) e
                 <= dyadic K 8556839292003942 (-53)).
  { exists 5404319552844595%positive, (-54). split; [reflexivity |].
    split; [split; [reflexivity | lia] |]. split; [lia |].
    rewrite (dyadic_rebase K _ (-53) (-54)) by lia. change (2 ^ (-53 - -54)) with 2.
    unfold dyadic. pose proof (pow2_pos (-54 + K) ltac:(lia)). lia. }
  destruct (unit_interval_cases 1074 u ltac:(lia) H0 H1)
    as [[s Eu] | (mu & eu & Eu & Cu & Hu)]; rewrite Eu.
  - exact Hsame.
  - destruct (canonical_bounds _ _ Cu) as (Eu1 & _ & _).
    assert (Hprod : dyadic K (5854679515581644 * Zpos mu) (-53 + eu)
                    <= dyadic K 5854679515581644 (-53)).
    { replace K with ((K - 1074) + 1074) by lia.
      apply dyadic_mul_below_one; first [exact Hu | lia]. }
    destruct (SFmul_upper K 5854679515581644 (-53) mu eu 5854679515581644 (-53)
                (proj1 Cr) Cu HK Cr Hprod) as [Hz | (mp & ep & Hp & Rp & Hple)];
      unfold SF64mul, SF64add.
    + rewrite Hz. exact Hsame.
    + rewrite Hp.
      destruct (canonical_bounds _ _ (proj1 Rp)) as (Ep & _ & _).
      apply SFadd_between; try assumption; try lia.
      assert (Hppos : 0 < dyadic K (Zpos mp) ep).
      { unfold dyadic. apply Z.mul_pos_pos; [lia | apply pow2_pos; lia]. }
      split; [lia |].
      rewrite (dyadic_rebase K 8556839292003942 (-53) (-54)) by lia.
      rewrite (dyadic_rebase K 5854679515581644 (-53) (-54)) in Hple by lia.
      change (2 ^ (-53 - -54)) with 2 in *.
      unfold dyadic in *. pose proof (pow2_pos (-54 + K) ltac:(lia)). lia.
Qed.

(** With the draw in the unit interval, the similarity lies in
    [[0.3, 0.95]]. *)
Lemma similarity_range (u : float) :
  (0 <=? u)%float = true -> (u <? 1)%float = true ->
  (0.3 <=? 0.3 + (0.95 - 0.3) * u)%float = true
  /\ (0.3 + (0.95 - 0.3) * u <=? 0.95)%float = true.
Proof.
  intros H0 H1.
  destruct (similarity_finite 2200 u ltac:(lia) H0 H1) as (m & e & Hs & [Cm Hm] & Hlo & Hhi).
  rewrite !leb_spec, Hs.
  change (Prim2SF 0.3) with (S754_finite false 5404319552844595 (-54)).
  change (Prim2SF 0.95) with (S754_finite false 8556839292003942 (-53)).
  split; apply (SFleb_canonical 2200); try assumption; try lia; reflexivity.
Qed.

(** The distance [1 - similarity] of such a draw is a finite number between
    0.05 and 0.7000000000000001. *)
Lemma distance_finite (K : Z) (u : float) :
  2148 <= K -> (0 <=? u)%float = true -> (u <? 1)%float = true ->
  exists m e,
    Prim2SF (1 - (0.3 + (0.95 - 0.3) * u))%float = S754_finite false m e
    /\ representable m e
    /\ dyadic K 7205759403792794 (-57) <= dyadic K (Zpos m) e
         <= dyadic K 6305039478318695 (-53).
Proof.
  intros HK H0 H1.
  destruct (similarity_finite K u HK H0 H1) as (ms & es & Hs & [Cs Es] & Hlo & Hhi).
  destruct (canonical_bounds _ _ Cs) as (Es1 & _ & _).
  rewrite sub_spec, Hs.
  change (Prim2SF 1) with (S754_finite false 4503599627370496 (-52)).
  apply SFsub_between; try lia.
  - reflexivity.
  - split; [reflexivity | lia].
  - rewrite (dyadic_rebase K 5404319552844595 (-54) (-57)) in Hlo by lia.
    rewrite (dyadic_rebase K 8556839292003942 (-53) (-57)) in Hhi by lia.
    rewrite (dyadic_rebase K 6305039478318695 (-53) (-57)) by lia.
    rewrite (dyadic_rebase K 4503599627370496 (-52) (-57)) by lia.
    change (2 ^ (-54 - -57)) with 8 in *. change (2 ^ (-53 - -57)) with 16 in *.
    change (2 ^ (-52 - -57)) with 32.
    unfold dyadic in *. pose proof (pow2_pos (-57 + K) ltac:(lia)). lia.
Qed.

(** *** Fixed notation of a number below one *)

Lemma div_half_even_bounds (n d : Z) :
  n / d <= PyFloat.div_half_even n d <= n / d + 1.
Proof.
  unfold PyFloat.div_half_even.
  destruct (2 * (n mod d) ?= d); [destruct (Z.even (n / d)) | |]; lia.
Qed.

(** [div_half_even] picks a nearest integer. *)
Lemma div_half_even_nearest (n d : Z) :
  0 < d -> 2 * Z.abs (PyFloat.div_half_even n d * d - n) <= d.
Proof.
  intros Hd. unfold PyFloat.div_half_even.
  pose proof (Z.div_mod n d ltac:(lia)) as Hdm.
  pose proof (Z.mod_pos_bound n d Hd) as Hm.
  destruct (Z.compare_spec (2 * (n mod d)) d); [destruct (Z.even (n / d)) | |]; nia.
Qed.

(** On a tie [div_half_even] picks the even neighbour. *)
Lemma div_half_even_tie (n d : Z) :
  0 < d -> 2 * Z.abs (PyFloat.div_half_even n d * d - n) = d ->
  Z.even (PyFloat.div_half_even n d) = true.
Proof.
  intros Hd. unfold PyFloat.div_half_even.
  pose proof (Z.div_mod n d ltac:(lia)) as Hdm.
  pose proof (Z.mod_pos_bound n d Hd) as Hm.
  destruct (Z.compare_spec (2 * (n mod d)) d) as [E | L | G].
  - destruct (Z.even (n / d)) eqn:Ev; intros _; [exact Ev |].
    rewrite Z.even_add, Ev. reflexivity.
  - intros H. nia.
  - intros H. nia.
Qed.

(** The four characters of [zfill 4]. *)
Lemma zfill_four (n : Z) :
  PyFloat.zfill 4 n =
  String (ascii_of_nat (48 + Z.to_nat (n / 1000 mod 10)))
    (String (ascii_of_nat (48 + Z.to_nat (n / 100 mod 10)))
       (String (ascii_of_nat (48 + Z.to_nat (n / 10 mod 10)))
          (String (ascii_of_nat (48 + Z.to_nat (n mod 10))) ""))).
Proof.
  cbn [PyFloat.zfill]. unfold PyFloat.digit.
  rewrite !Zdiv.Zdiv_Zdiv by lia.
  change (10 * 10 * 10) with 1000. change (10 * 10) with 100. reflexivity.
Qed.

(** A positive number that does not exceed 0.95 prints in [.4f] format as
    [0.] and the four digits of the multiple of 0.0001 nearest to its
    exact value, the even one on a tie. *)
Lemma format_f_four_decimals (K : Z) (x : float) (m : positive) (e : Z) :
  Prim2SF x = S754_finite false m e -> 0 <= e + K -> 53 <= K ->
  dyadic K (Zpos m) e <= dyadic K 8556839292003942 (-53) ->
  exists n,
    (e < 0 /\ 0 <= n < 10000)
    /\ 2 * Z.abs (n * 2 ^ (- e) - Zpos m * 10000) <= 2 ^ (- e)
    /\ (2 * Z.abs (n * 2 ^ (- e) - Zpos m * 10000) = 2 ^ (- e) -> Z.even n = true)
    /\ PyFloat.format_f 4 x =
       String "0" (String "."
         (String (ascii_of_nat (48 + Z.to_nat (n / 1000 mod 10)))
            (String (ascii_of_nat (48 + Z.to_nat (n / 100 mod 10)))
               (String (ascii_of_nat (48 + Z.to_nat (n / 10 mod 10)))
                  (String (ascii_of_nat (48 + Z.to_nat (n mod 10))) ""))))).
Proof.
  intros Hx HKe HK Hle. unfold PyFloat.format_f. rewrite Hx.
  assert (He : e < 0).
  { destruct (Z.lt_ge_cases e 0) as [| Hge]; [assumption | exfalso].
    rewrite (dyadic_rebase K _ e (-53)) in Hle by lia.
    unfold dyadic in Hle. pose proof (pow2_pos (-53 + K) ltac:(lia)) as HP.
    assert (2 ^ 53 <= 2 ^ (e - -53)) by (apply Z.pow_le_mono_r; lia).
    assert (1 * 2 ^ (e - -53) <= Zpos m * 2 ^ (e - -53))
      by (apply Z.mul_le_mono_nonneg_r; lia).
    assert (8556839292003942 < 2 ^ 53) by reflexivity. nia. }
  unfold PyFloat.numerator, PyFloat.denominator.
  replace (0 <=? e) with false by (symmetry; apply Z.leb_gt; exact He).
  change (10 ^ Z.of_nat 4) with 10000.
  set (D := 2 ^ (- e)). assert (HD : 0 < D) by (apply pow2_pos; lia).
  set (N := PyFloat.div_half_even (Zpos m * 10000) D).
  assert (Hfloor : Zpos m * 10000 / D < 9500).
  { apply Z.div_lt_upper_bound; [exact HD |].
    assert (Hm : Zpos m * 2 ^ 53 <= 8556839292003942 * D).
    { unfold dyadic in Hle.
      pose proof (pow2_pos (e + K) HKe) as HP.
      assert (E1 : 2 ^ (-53 + K) * 2 ^ 53 = D * 2 ^ (e + K)).
      { subst D. rewrite <- !pow2_split by lia. f_equal. lia. }
      assert (E2 : Zpos m * 2 ^ (e + K) * 2 ^ 53 <= 8556839292003942 * 2 ^ (-53 + K) * 2 ^ 53).
      { apply Z.mul_le_mono_nonneg_r; [| exact Hle]. apply Z.lt_le_incl, pow2_pos; lia. }
      apply Z.mul_le_mono_pos_r with (2 ^ (e + K)); [exact HP |].
      rewrite <- (Z.mul_assoc 8556839292003942), <- E1. lia. }
    change (2 ^ 53) with 9007199254740992 in Hm. lia. }
  pose proof (div_half_even_bounds (Zpos m * 10000) D) as HN. fold N in HN.
  assert (0 <= Zpos m * 10000 / D) by (apply Z.div_pos; lia).
  exists N. split; [lia |].
  split; [apply div_half_even_nearest; exact HD |].
  split; [apply div_half_even_tie; exact HD |].
  unfold PyFloat.fixed. change (10 ^ Z.of_nat 4) with 10000.
  rewrite Z.div_small, Z.mod_small by lia. rewrite zfill_four. reflexivity.
Qed.

End Binary64.

(** ** Missing input *)

(** C5: without an audio reference [process_audio] returns the prompt to
    upload a file and no embedding; it returns normally and leaves the
    generator untouched. *)
Theorem process_audio_missing_input (g : RandomState) (window_type : string)
    (duration step : option float) :
  process_audio None window_type duration step g =
  (Returned ("请上传音频文件", None), g).
Proof. reflexivity. Qed.

(** C6: when either reference is absent [compare_speakers] returns exactly
    the prompt to upload both files; it returns normally and draws nothing. *)
Theorem compare_speakers_missing_input (g : RandomState) (audio1 audio2 : option string) :
  audio1 = None ∨ audio2 = None →
  compare_speakers audio1 audio2 g = (Returned "请上传两个音频文件进行比较", g).
Proof.
  intros [-> | ->].
  - reflexivity.
  - now destruct audio1.
Qed.

Lemma compare_speakers_missing_input_witness :
  ((None : option string) = None ∨ Some "b.wav" = None) ∧
  compare_speakers None (Some "b.wav") (generator_yielding 0.5) =
  (Returned "请上传两个音频文件进行比较", generator_yielding 0.5).
Proof.
  split; [now left |].
  apply (compare_speakers_missing_input (generator_yielding 0.5) None (Some "b.wav")).
  now left.
Defined.

(** ** Model information *)

(** C9: [load_model_info] takes no input, always returns normally, leaves
    the generator as it found it, and returns the same five-entry record at
    every call: the name, the description, sample rate 16000, embedding
    dimension 256 and the status. *)
Theorem load_model_info_constant :
  ∃ info : gmap string value,
    (∀ g, load_model_info g = (Returned info, g))
    ∧ info !! "model_name" = Some (VStr "wespeaker-voxceleb-resnet34-LM")
    ∧ info !! "description" =
        Some (VStr "WeSpeaker ResNet34 说话人嵌入模型，基于 VoxCeleb 数据集训练")
    ∧ info !! "sample_rate" = Some (VInt 16000)
    ∧ info !! "embedding_dim" = Some (VInt 256)
    ∧ info !! "status" = Some (VStr "模型已加载")
    ∧ size info = 5.
Proof. eexists. repeat split; reflexivity. Qed.

(** ** Embedding extraction *)

Lemma normal_rows_shape (d0 d1 : nat) (g : RandomState) :
  length (normal_rows d0 d1 g) = d0 ∧
  Forall (λ row, length row = d1) (normal_rows d0 d1 g).
Proof.
  unfold normal_rows. split.
  - now rewrite length_map, length_seq.
  - apply Forall_map, Forall_forall. intros i _. cbn.
    now rewrite length_map, length_seq.
Qed.

Lemma drawn_embedding_shape (g : RandomState) :
  shape (drawn_embedding g) = (1, 256) ∧
  Forall (λ row, length row = 256) (drawn_embedding g).
Proof.
  split; [reflexivity |].
  unfold drawn_embedding, astype_float32.
  apply Forall_map. destruct (normal_rows_shape 1 256 g) as [_ H].
  eapply Forall_impl; [exact H |]. cbn. intros row Hrow.
  now rewrite length_map.
Qed.

(** C1, as the code has it: with an audio reference present the call
    returns a two-dimensional array of shape (1, 256): a single row, whose
    length is the embedding dimension that [load_model_info] reports. *)
Theorem process_audio_embedding_shape (g : RandomState) (audio_file window_type : string)
    (duration step : option float) :
  ∃ report embedding info,
    process_audio (Some audio_file) window_type duration step g =
      (Returned (report, Some embedding), advance Normal 256 g)
    ∧ load_model_info g = (Returned info, g)
    ∧ shape embedding = (1, 256)
    ∧ Forall (λ row, length row = 256) embedding
    ∧ info !! "embedding_dim" = Some (VInt (Z.of_nat (snd (shape embedding)))).
Proof.
  destruct (drawn_embedding_shape g) as [Hshape Hrows].
  eexists _, (drawn_embedding g), _. split; [apply process_audio_present |].
  split; [reflexivity |]. split; [exact Hshape |]. split; [exact Hrows |].
  rewrite Hshape. reflexivity.
Qed.

(** C1, as stated, fails: the array returned for [a.wav] has length 1. *)
Lemma embedding_length_counterexample :
  match fst (process_audio (Some "a.wav") "whole" None None (generator_yielding 0.5)) with
  | Returned (_, Some embedding) => len embedding = 1 ∧ len embedding ≠ 256
  | _ => False
  end.
Proof. rewrite process_audio_present. cbn. split; [reflexivity | discriminate]. Qed.

(** C7: with an audio reference present, the report holds, each on the
    line of its label, the model name, the sample rate, the embedding
    dimension and the status that [load_model_info] returns, the window
    type as given, the duration and the step as resolved, and the base name
    of the audio file.  A window parameter resolves to the number as Python
    prints it ([3.0] for 3.0, [0.5] for 0.5) when it is given and not zero,
    and otherwise to [whole] for the duration and to [N/A] for the step.
    The base name holds no separator and is the path itself or what
    follows a separator of the path. *)
Theorem process_audio_report_contents (g : RandomState) (audio_file window_type : string)
    (duration step : option float) :
  let resolved (fallback : string) (parameter : option float) (text : string) :=
    match parameter with
    | Some x => if (x =? 0)%float then text = fallback else text = PyFloat.repr x
    | None => text = fallback
    end in
  ∃ report embedding info duration_text step_text name,
    process_audio (Some audio_file) window_type duration step g =
      (Returned (report, Some embedding), advance Normal 256 g)
    ∧ load_model_info g = (Returned info, g)
    ∧ info !! "model_name" = Some (VStr "wespeaker-voxceleb-resnet34-LM")
    ∧ info !! "sample_rate" = Some (VInt 16000)
    ∧ info !! "embedding_dim" = Some (VInt 256)
    ∧ info !! "status" = Some (VStr "模型已加载")
    ∧ contains ("- 模型名称: wespeaker-voxceleb-resnet34-LM" +:+ LF) report
    ∧ contains ("- 采样率: 16000 Hz" +:+ LF) report
    ∧ contains ("- 嵌入维度: 256" +:+ LF) report
    ∧ contains ("- 处理状态: 模型已加载" +:+ LF) report
    ∧ contains ("- 窗口类型: " +:+ window_type +:+ LF) report
    ∧ contains ("- 持续时间: " +:+ duration_text +:+ LF) report
    ∧ contains ("- 步长: " +:+ step_text +:+ LF) report
    ∧ contains ("**音频文件：** " +:+ name +:+ LF) report
    ∧ resolved "whole" duration duration_text
    ∧ resolved "N/A" step step_text
    ∧ (duration = Some 3%float → duration_text = "3.0")
    ∧ (step = Some 0.5%float → step_text = "0.5")
    ∧ ¬ contains "/" name
    ∧ (audio_file = name ∨ ∃ dir, audio_file = dir +:+ "/" +:+ name).
Proof.
  intros resolved.
  exists (info_text (VStr "wespeaker-voxceleb-resnet34-LM") (VInt 16000) (VInt 256)
            (VStr "模型已加载") window_type duration step audio_file (drawn_embedding g)).
  eexists (drawn_embedding g), _, (shown_duration duration), (shown_step step),
    (basename audio_file).
  split; [apply process_audio_present |].
  split; [reflexivity |]. do 4 (split; [reflexivity |]).
  unfold info_text.
  split; [run_from "- 模型名称: " 3 |]. split; [run_from "- 采样率: " 4 |].
  split; [run_from "- 嵌入维度: " 3 |]. split; [run_from "- 处理状态: " 3 |].
  split; [run_from "- 窗口类型: " 3 |]. split; [run_from "- 持续时间: " 3 |].
  split; [run_from "- 步长: " 3 |]. split; [run_from "**音频文件：** " 3 |].
  split.
  { destruct duration as [d |]; [| reflexivity]. unfold resolved, shown_duration, PyFloat.truthy.
    destruct (d =? 0)%float; reflexivity. }
  split.
  { destruct step as [s |]; [| reflexivity]. unfold resolved, shown_step, PyFloat.truthy.
    destruct (s =? 0)%float; reflexivity. }
  split; [intros ->; vm_compute; reflexivity |].
  split; [intros ->; vm_compute; reflexivity |].
  apply basename_unique_suffix.
Qed.

(** The report of an extraction from [/tmp/gradio/a.wav] with a sliding
    window of 3.0 seconds and a step of 0.5. *)
Lemma process_audio_report_contents_witness :
  ∃ report embedding,
    process_audio (Some "/tmp/gradio/a.wav") "sliding" (Some 3%float) (Some 0.5%float)
      (generator_yielding 0.5) =
      (Returned (report, Some embedding), advance Normal 256 (generator_yielding 0.5))
    ∧ contains ("- 窗口类型: sliding" +:+ LF) report
    ∧ contains ("- 持续时间: 3.0" +:+ LF) report
    ∧ contains ("- 步长: 0.5" +:+ LF) report.
Proof.
  destruct (process_audio_report_contents (generator_yielding 0.5) "/tmp/gradio/a.wav"
              "sliding" (Some 3%float) (Some 0.5%float))
    as (report & embedding & info & duration_text & step_text & name & Hrun & _ & _ & _ & _
        & _ & _ & _ & _ & _ & Hwindow & Hduration & Hstep & _ & _ & _ & Hd & Hs & _).
  rewrite (Hd eq_refl) in Hduration. rewrite (Hs eq_refl) in Hstep.
  exists report, embedding. repeat split; assumption.
Defined.

(** C10: the window parameters are resolved by truthiness.  A duration of
    [0.0] gives the very result an absent duration gives, for every window
    type, and the duration field reads [whole]; a step of [0.0] gives the
    result an absent step gives, and the step field reads [N/A]. *)
Theorem zero_window_parameters_read_as_absent (g : RandomState)
    (audio_file window_type : string) (duration step : option float) :
  process_audio (Some audio_file) window_type (Some 0%float) step g =
    process_audio (Some audio_file) window_type None step g
  ∧ process_audio (Some audio_file) window_type duration (Some 0%float) g =
    process_audio (Some audio_file) window_type duration None g
  ∧ (∃ report embedding,
       process_audio (Some audio_file) window_type (Some 0%float) step g =
         (Returned (report, Some embedding), advance Normal 256 g)
       ∧ contains ("- 持续时间: whole" +:+ LF) report)
  ∧ (∃ report embedding,
       process_audio (Some audio_file) window_type duration (Some 0%float) g =
         (Returned (report, Some embedding), advance Normal 256 g)
       ∧ contains ("- 步长: N/A" +:+ LF) report).
Proof.
  split; [reflexivity |]. split; [reflexivity |]. split.
  - eexists _, _. split; [apply process_audio_present |].
    unfold info_text. line_from "- 持续时间: ".
  - eexists _, _. split; [apply process_audio_present |].
    unfold info_text. line_from "- 步长: ".
Qed.



(** What the two reports of the counterexample read in the duration field. *)
Example whole_window_reports :
  shown_duration (Some 3%float) = "3.0" ∧ shown_step (Some 1%float) = "1.0"
  ∧ shown_duration None = "whole" ∧ shown_step None = "N/A".
Proof. repeat split; vm_compute; reflexivity. Qed.



(** ** Speaker comparison *)

(** C2: with both references present the report ends with the verdict
    line, and the verdict drawn for a similarity [s] is [同一说话人] exactly
    when [s > 0.7] and [不同说话人] otherwise; a similarity of exactly 0.7
    gives [不同说话人]. *)
Theorem verdict_threshold (g : RandomState) (audio1 audio2 : string) :
  (∃ report,
     compare_speakers (Some audio1) (Some audio2) g = (Returned report, advance Double 1 g)
     ∧ ends_with ("**判断：** " +:+ verdict (drawn_similarity g) +:+ LF) report)
  ∧ (∀ s : float, verdict s = "同一说话人" ↔ (0.7 <? s)%float = true)
  ∧ (∀ s : float, verdict s = "不同说话人" ↔ (0.7 <? s)%float = false)
  ∧ verdict 0.7 = "不同说话人".
Proof.
  split; [| split; [| split]].
  - eexists. split; [apply compare_speakers_present |].
    unfold result_text. tail_from "**判断：** ".
  - intros s. unfold verdict. destruct (0.7 <? s)%float; split; congruence.
  - intros s. unfold verdict. destruct (0.7 <? s)%float; split; congruence.
  - reflexivity.
Qed.

(** The boundary is met: a draw of 0.6153846153846154 makes the similarity
    exactly 0.7, and the verdict is [不同说话人]. *)
Example verdict_at_boundary :
  drawn_similarity (generator_yielding 0.6153846153846154) = 0.7%float
  ∧ unit_interval 0.6153846153846154
  ∧ verdict (drawn_similarity (generator_yielding 0.6153846153846154)) = "不同说话人".
Proof. repeat split. Qed.

(** C3: with both references present and the generator's double in the
    unit interval, the report is written from a similarity drawn in
    [[0.3, 0.95]] and from the distance [1 - similarity]. *)
Theorem similarity_and_distance (g : RandomState) (audio1 audio2 : string) :
  unit_interval (double_at g (drawn g)) →
  ∃ similarity distance,
    compare_speakers (Some audio1) (Some audio2) g =
      (Returned (result_text audio1 audio2 similarity distance), advance Double 1 g)
    ∧ similarity = drawn_similarity g
    ∧ distance = (1 - similarity)%float
    ∧ (0.3 <=? similarity)%float = true
    ∧ (similarity <=? 0.95)%float = true.
Proof.
  intros [H0 H1]. exists (drawn_similarity g), (1 - drawn_similarity g)%float.
  split; [apply compare_speakers_present |]. split; [reflexivity |].
  split; [reflexivity |]. apply Binary64.similarity_range; assumption.
Qed.

Lemma similarity_and_distance_witness :
  unit_interval (double_at (generator_yielding 0.5) (drawn (generator_yielding 0.5)))
  ∧ ∃ similarity distance,
      compare_speakers (Some "a.wav") (Some "b.wav") (generator_yielding 0.5) =
        (Returned (result_text "a.wav" "b.wav" similarity distance),
         advance Double 1 (generator_yielding 0.5))
      ∧ similarity = drawn_similarity (generator_yielding 0.5)
      ∧ distance = (1 - similarity)%float
      ∧ (0.3 <=? similarity)%float = true
      ∧ (similarity <=? 0.95)%float = true.
Proof.
  split; [split; reflexivity |].
  apply (similarity_and_distance (generator_yielding 0.5) "a.wav" "b.wav").
  split; reflexivity.
Defined.

(** The two scenarios of the specification: a similarity of 0.8 gives the
    distance 0.2000 and the verdict [同一说话人], a similarity of 0.5 the
    distance 0.5000 and the verdict [不同说话人]. *)
Example forced_similarity_scenarios :
  PyFloat.format_f 4 (1 - 0.8) = "0.2000" ∧ verdict 0.8 = "同一说话人"
  ∧ PyFloat.format_f 4 (1 - 0.5) = "0.5000" ∧ verdict 0.5 = "不同说话人".
Proof. repeat split; vm_compute; reflexivity. Qed.

(** C8: with both references present the report holds, each on the line
    of its label, the base names of both files, the similarity and the
    distance in [.4f] format, and the verdict: [同一说话人] when the
    similarity is above 0.7 and [不同说话人] otherwise.  A base name holds
    no separator and is the path itself or what follows a separator of the
    path.  With the generator's double in the unit interval each number is
    rendered to four decimal places: it reads [0.] and the four digits of
    [n], where [n / 10000] is the multiple of 0.0001 nearest to the exact
    value [m * 2^e] of the number, the even one on a tie. *)
Theorem compare_speakers_report_contents (g : RandomState) (audio1 audio2 : string) :
  let base_name_of (path name : string) :=
    ¬ contains "/" name ∧ (path = name ∨ ∃ dir, path = dir +:+ "/" +:+ name) in
  let digit (d : Z) := ascii_of_nat (48 + Z.to_nat (d mod 10)%Z) in
  let rendered (x : float) (text : string) :=
    ∃ (m : positive) (e n : Z),
      Prim2SF x = S754_finite false m e
      ∧ (e < 0 ∧ 0 ≤ n < 10000)%Z
      ∧ (2 * Z.abs (n * 2 ^ (- e) - Zpos m * 10000) ≤ 2 ^ (- e))%Z
      ∧ ((2 * Z.abs (n * 2 ^ (- e) - Zpos m * 10000) = 2 ^ (- e))%Z → Z.even n = true)
      ∧ text =
        String "0" (String "."
          (String (digit (n / 1000)%Z) (String (digit (n / 100)%Z)
             (String (digit (n / 10)%Z) (String (digit n) ""))))) in
  ∃ report similarity distance name1 name2 similarity_text distance_text,
    compare_speakers (Some audio1) (Some audio2) g = (Returned report, advance Double 1 g)
    ∧ similarity = (0.3 + (0.95 - 0.3) * double_at g (drawn g))%float
    ∧ distance = (1 - similarity)%float
    ∧ contains ("**文件1：** " +:+ name1 +:+ LF) report
    ∧ contains ("**文件2：** " +:+ name2 +:+ LF) report
    ∧ contains ("**相似度：** " +:+ similarity_text +:+ " (余弦相似度)" +:+ LF) report
    ∧ contains ("**距离：** " +:+ distance_text +:+ " (余弦距离)" +:+ LF) report
    ∧ contains ("**判断：** " +:+
                (if (0.7 <? similarity)%float then "同一说话人" else "不同说话人") +:+ LF)
        report
    ∧ base_name_of audio1 name1
    ∧ base_name_of audio2 name2
    ∧ similarity_text = PyFloat.format_f 4 similarity
    ∧ distance_text = PyFloat.format_f 4 distance
    ∧ (unit_interval (double_at g (drawn g)) →
       rendered similarity similarity_text ∧ rendered distance distance_text).
Proof.
  intros base_name_of digit rendered.
  exists (result_text audio1 audio2 (drawn_similarity g) (1 - drawn_similarity g)%float).
  exists (drawn_similarity g), (1 - drawn_similarity g)%float.
  exists (basename audio1), (basename audio2).
  exists (PyFloat.format_f 4 (drawn_similarity g)).
  exists (PyFloat.format_f 4 (1 - drawn_similarity g)).
  split; [apply compare_speakers_present |].
  split; [reflexivity |]. split; [reflexivity |].
  unfold result_text.
  split; [run_from "**文件1：** " 3 |]. split; [run_from "**文件2：** " 3 |].
  split; [run_from "**相似度：** " 4 |]. split; [run_from "**距离：** " 4 |].
  split; [run_from "**判断：** " 3 |].
  split; [apply basename_unique_suffix |]. split; [apply basename_unique_suffix |].
  split; [reflexivity |]. split; [reflexivity |].
  intros [H0 H1]. unfold drawn_similarity.
  destruct (Binary64.similarity_finite 2200 _ ltac:(lia) H0 H1)
    as (ms & es & Hs & [Cs _] & _ & Hshi).
  destruct (Binary64.distance_finite 2200 _ ltac:(lia) H0 H1)
    as (md & ed & Hd & [Cd _] & _ & Hdhi).
  destruct (Binary64.canonical_bounds _ _ Cs) as (Es & _ & _).
  destruct (Binary64.canonical_bounds _ _ Cd) as (Ed & _ & _).
  destruct (Binary64.format_f_four_decimals 2200 _ ms es Hs ltac:(lia) ltac:(lia) Hshi)
    as (n & Hn & Nn & Tn & Fn).
  assert (Hdhi' : (dyadic 2200 (Zpos md) ed ≤ dyadic 2200 8556839292003942 (-53))%Z).
  { etransitivity; [exact Hdhi |]. unfold dyadic.
    apply Z.mul_le_mono_nonneg_r; [| lia]. apply Z.lt_le_incl, Binary64.pow2_pos. lia. }
  destruct (Binary64.format_f_four_decimals 2200 _ md ed Hd ltac:(lia) ltac:(lia) Hdhi')
    as (k & Hk & Nk & Tk & Fk).
  split.
  - exists ms, es, n. auto.
  - exists md, ed, k. auto.
Qed.

(** A draw of 0.5 gives the similarity 0.625 and the distance 0.375, which
    the report of [/srv/in/a.wav] against [b.wav] prints as [0.6250] and
    [0.3750] behind the two base names. *)
Lemma compare_speakers_report_contents_witness :
  unit_interval (double_at (generator_yielding 0.5) (drawn (generator_yielding 0.5)))
  ∧ ∃ report,
      compare_speakers (Some "/srv/in/a.wav") (Some "b.wav") (generator_yielding 0.5) =
        (Returned report, advance Double 1 (generator_yielding 0.5))
      ∧ contains ("**相似度：** 0.6250 (余弦相似度)" +:+ LF) report
      ∧ contains ("**距离：** 0.3750 (余弦距离)" +:+ LF) report
      ∧ contains ("**判断：** 不同说话人" +:+ LF) report
      ∧ ∃ (m : positive) (e n : Z),
          Prim2SF 0.625 = S754_finite false m e
          ∧ (e < 0 ∧ 0 ≤ n < 10000)%Z
          ∧ (2 * Z.abs (n * 2 ^ (- e) - Zpos m * 10000) ≤ 2 ^ (- e))%Z
          ∧ "0.6250" =
            String "0" (String "."
              (String (ascii_of_nat (48 + Z.to_nat (n / 1000 mod 10)))
                 (String (ascii_of_nat (48 + Z.to_nat (n / 100 mod 10)))
                    (String (ascii_of_nat (48 + Z.to_nat (n / 10 mod 10)))
                       (String (ascii_of_nat (48 + Z.to_nat (n mod 10))) ""))))).
Proof.
  split; [split; reflexivity |].
  destruct (compare_speakers_report_contents (generator_yielding 0.5) "/srv/in/a.wav" "b.wav")
    as (report & similarity & distance & name1 & name2 & similarity_text & distance_text
        & Hrun & -> & -> & _ & _ & Hsimilarity & Hdistance & Hverdict & _ & _ & Hst & Hdt
        & Hrendered).
  destruct Hrendered as [(m & e & n & Hm & Hn & Hnear & _ & Htext) _]; [split; reflexivity |].
  vm_compute in Hst. vm_compute in Hdt. subst similarity_text distance_text.
  exists report. split; [exact Hrun |]. split; [exact Hsimilarity |].
  split; [exact Hdistance |]. split; [exact Hverdict |].
  exists m, e, n. split; [exact Hm |]. split; [exact Hn |]. split; [exact Hnear | exact Htext].
Defined.

(** ** Further properties of the handlers *)

Lemma result_text_not_prompt (audio1 audio2 : string) (similarity distance : float) :
  result_text audio1 audio2 similarity distance ≠ "请上传两个音频文件进行比较".
Proof. unfold result_text. rewrite fstring_cons. discriminate. Qed.



Lemma drawn_embedding_entries (g : RandomState) :
  ∃ row, drawn_embedding g = [row]
    ∧ ∀ j, j < 256 → row !! j = Some (to_float32 (gauss_at g (drawn g ++ replicate j Normal)%list)).
Proof.
  eexists. split; [reflexivity |]. intros j Hj.
  rewrite list_lookup_fmap, list_lookup_fmap, lookup_seq_lt by exact Hj.
  reflexivity.
Qed.

Lemma process_audio_missing_run (g : RandomState) (window_type : string)
    (duration step : option float) :
  process_audio None window_type duration step g = (Returned ("请上传音频文件", None), g).
Proof. reflexivity. Qed.

Lemma compare_speakers_returns_run (g : RandomState) (audio1 audio2 : option string) :
  ∃ report g', compare_speakers audio1 audio2 g = (Returned report, g').
Proof. destruct audio1, audio2; eexists _, _; reflexivity. Qed.

(** X1: [process_audio] never raises.  It returns an embedding exactly when
    an audio reference is given, and only then does it use the generator,
    which it asks for 256 standard normal draws; without a reference the
    generator is left as it was. *)
Theorem process_audio_returns (g : RandomState) (audio_file : option string)
    (window_type : string) (duration step : option float) :
  ∃ report embedding,
    process_audio audio_file window_type duration step g =
      (Returned (report, embedding),
       match audio_file with Some _ => advance Normal 256 g | None => g end)
    ∧ (embedding = None ↔ audio_file = None).
Proof.
  destruct audio_file as [audio_file |].
  - eexists _, _. split; [apply process_audio_present |]. split; discriminate.
  - eexists _, _. split; [reflexivity |]. split; reflexivity.
Qed.

(** X2: [compare_speakers] never raises.  Its result is the prompt to upload
    both files exactly when a reference is absent, and only a real
    comparison uses the generator: one double, none otherwise. *)
Theorem compare_speakers_returns (g : RandomState) (audio1 audio2 : option string) :
  ∃ report,
    compare_speakers audio1 audio2 g =
      (Returned report,
       match audio1, audio2 with Some _, Some _ => advance Double 1 g | _, _ => g end)
    ∧ (report = "请上传两个音频文件进行比较" ↔ audio1 = None ∨ audio2 = None).
Proof.
  destruct audio1 as [audio1 |], audio2 as [audio2 |].
  - eexists. split; [apply compare_speakers_present |]. split.
    + intros H. now apply result_text_not_prompt in H.
    + intros [H | H]; discriminate H.
  - eexists. split; [reflexivity |]. split; [now right | reflexivity].
  - eexists. split; [reflexivity |]. split; [now left | reflexivity].
  - eexists. split; [reflexivity |]. split; [now left | reflexivity].
Qed.

(** X3: the embedding does not depend on the audio file, nor on any other
    argument: two calls in the same generator state return the same array,
    whose entry [j] is the binary32 rounding of the generator's [j]-th next
    normal draw. *)
Theorem embedding_ignores_the_audio (g : RandomState) (audio_file1 audio_file2 : string)
    (window_type1 window_type2 : string) (duration1 step1 duration2 step2 : option float) :
  ∃ report1 report2 row,
    process_audio (Some audio_file1) window_type1 duration1 step1 g =
      (Returned (report1, Some [row]), advance Normal 256 g)
    ∧ process_audio (Some audio_file2) window_type2 duration2 step2 g =
      (Returned (report2, Some [row]), advance Normal 256 g)
    ∧ ∀ j, j < 256 → row !! j = Some (to_float32 (gauss_at g (drawn g ++ replicate j Normal)%list)).
Proof.
  destruct (drawn_embedding_entries g) as (row & Hrow & Hentries).
  eexists _, _, row. rewrite !process_audio_present, Hrow.
  split; [reflexivity |]. split; [reflexivity | exact Hentries].
Qed.

(** X4: the comparison does not depend on the two files: in the same
    generator state any two pairs of references get the same similarity,
    the same distance and so the same verdict. *)
Theorem comparison_ignores_the_audio (g : RandomState) (audio1 audio2 other1 other2 : string) :
  ∃ similarity distance,
    compare_speakers (Some audio1) (Some audio2) g =
      (Returned (result_text audio1 audio2 similarity distance), advance Double 1 g)
    ∧ compare_speakers (Some other1) (Some other2) g =
      (Returned (result_text other1 other2 similarity distance), advance Double 1 g)
    ∧ compare_speakers (Some audio2) (Some audio1) g =
      (Returned (result_text audio2 audio1 similarity distance), advance Double 1 g).
Proof. eexists _, _. rewrite !compare_speakers_present. repeat split. Qed.

(** X6: the report of an extraction always ends with the line that gives the
    shape of the embedding, and that shape reads (1, 256). *)
Theorem report_ends_with_shape (g : RandomState) (audio_file window_type : string)
    (duration step : option float) :
  ∃ report embedding,
    process_audio (Some audio_file) window_type duration step g =
      (Returned (report, Some embedding), advance Normal 256 g)
    ∧ ends_with ("**嵌入向量形状：** (1, 256)" +:+ LF) report.
Proof.
  eexists _, _. split; [apply process_audio_present |].
  unfold info_text. tail_from "**嵌入向量形状：** ".
Qed.


(** X8: paths that differ only in their directory give the same results. *)
Theorem same_base_name_same_result (g : RandomState) (path1 path2 other window_type : string)
    (duration step : option float) :
  basename path1 = basename path2 →
  process_audio (Some path1) window_type duration step g =
    process_audio (Some path2) window_type duration step g
  ∧ compare_speakers (Some path1) (Some other) g = compare_speakers (Some path2) (Some other) g
  ∧ compare_speakers (Some other) (Some path1) g = compare_speakers (Some other) (Some path2) g.
Proof.
  intros H. rewrite !process_audio_present, !compare_speakers_present.
  unfold info_text, result_text. now rewrite H.
Qed.

Lemma same_base_name_same_result_witness :
  basename "/tmp/one/a.wav" = basename "/tmp/two/a.wav"
  ∧ process_audio (Some "/tmp/one/a.wav") "whole" None None (generator_yielding 0.5) =
    process_audio (Some "/tmp/two/a.wav") "whole" None None (generator_yielding 0.5).
Proof.
  split; [reflexivity |].
  apply (same_base_name_same_result (generator_yielding 0.5) "/tmp/one/a.wav"
           "/tmp/two/a.wav" "b.wav" "whole" None None).
  reflexivity.
Defined.

(** X9: requests served in a row share the generator.  A missing-input
    extraction leaves a following comparison as it would be alone.  After a
    real extraction the comparison runs in the state that the 256 normal
    draws have left: its similarity is computed from the double that the
    generator yields after them, and the generator has then served the 256
    normal draws and that double. *)
Theorem extraction_then_comparison (g : RandomState) (audio_file window_type : string)
    (duration step : option float) (audio1 audio2 : option string) (other1 other2 : string) :
  (∃ compared g',
     compare_speakers audio1 audio2 g = (Returned compared, g')
     ∧ extract_then_compare None window_type duration step audio1 audio2 g =
       (Returned (("请上传音频文件", None), compared), g'))
  ∧ (∃ extracted compared g',
       process_audio (Some audio_file) window_type duration step g =
         (Returned extracted, advance Normal 256 g)
       ∧ compare_speakers audio1 audio2 (advance Normal 256 g) = (Returned compared, g')
       ∧ extract_then_compare (Some audio_file) window_type duration step audio1 audio2 g =
         (Returned (extracted, compared), g'))
  ∧ (∃ extracted similarity,
       process_audio (Some audio_file) window_type duration step g =
         (Returned extracted, advance Normal 256 g)
       ∧ extract_then_compare (Some audio_file) window_type duration step
           (Some other1) (Some other2) g =
         (Returned (extracted, result_text other1 other2 similarity (1 - similarity)%float),
          advance Double 1 (advance Normal 256 g))
       ∧ similarity =
         (0.3 + (0.95 - 0.3) * double_at g (drawn g ++ replicate 256 Normal)%list)%float).
Proof.
  split; [| split].
  - destruct (compare_speakers_returns_run g audio1 audio2) as (compared & g' & H).
    exists compared, g'. split; [exact H |].
    unfold extract_then_compare, mbind, M_bind.
    rewrite process_audio_missing_run, H. reflexivity.
  - destruct (compare_speakers_returns_run (advance Normal 256 g) audio1 audio2)
      as (compared & g' & H).
    eexists _, compared, g'. split; [apply process_audio_present |].
    split; [exact H |].
    unfold extract_then_compare, mbind, M_bind.
    rewrite process_audio_present, H. reflexivity.
  - eexists _, _. split; [apply process_audio_present |].
    split; [| reflexivity].
    unfold extract_then_compare, mbind, M_bind.
    rewrite process_audio_present, compare_speakers_present. reflexivity.
Qed.

(** ** The numbers of a comparison *)
Module Comparison.

Import Binary64.
Local Open Scope Z_scope.

(** [1 - s] for a finite positive [s] stays between representable bounds
    of the exact difference. *)
Lemma one_minus_between (K : Z) (s : float) (ms : positive) (es : Z)
    (ma : positive) (ea : Z) (mb : positive) (eb : Z) :
  Prim2SF s = S754_finite false ms es -> 0 <= es + K -> 1074 <= K ->
  canonical ma ea -> representable mb eb ->
  dyadic K (Zpos ma) ea <= dyadic K 4503599627370496 (-52) - dyadic K (Zpos ms) es
    <= dyadic K (Zpos mb) eb ->
  exists m e,
    Prim2SF (1 - s)%float = S754_finite false m e
    /\ representable m e
    /\ dyadic K (Zpos ma) ea <= dyadic K (Zpos m) e <= dyadic K (Zpos mb) eb.
Proof.
  intros Hs HKs HK Ca Rb Hval. rewrite sub_spec, Hs.
  change (Prim2SF 1) with (S754_finite false 4503599627370496 (-52)).
  apply SFsub_between; try assumption; lia.
Qed.

(** A number of [[0.3, 0.95]] above 0.7 is at least the next double, one
    not above 0.7 is at most 0.7: both have the exponent of 0.7 or less. *)
Lemma above_threshold (K : Z) (m : positive) (e : Z) :
  1074 <= K -> canonical m e ->
  dyadic K (Zpos m) e <= dyadic K 8556839292003942 (-53) ->
  dyadic K 6305039478318694 (-53) < dyadic K (Zpos m) e ->
  dyadic K 6305039478318695 (-53) <= dyadic K (Zpos m) e.
Proof.
  intros HK Cm Hhi Hlo. destruct (canonical_bounds _ _ Cm) as (Em & Um & Nm).
  destruct (Z.lt_trichotomy e (-53)) as [Hlt | [-> | Hgt]].
  - exfalso.
    assert (dyadic K (Zpos m) e < dyadic K 6305039478318694 (-53)).
    { apply dyadic_exponent_lt; lia. }
    lia.
  - unfold dyadic in *. pose proof (pow2_pos (-53 + K) ltac:(lia)) as HP.
    apply Z.mul_le_mono_nonneg_r; [lia |].
    assert (6305039478318694 < Zpos m); [| lia].
    apply Z.mul_lt_mono_pos_r with (2 ^ (-53 + K)); assumption.
  - exfalso.
    assert (dyadic K 8556839292003942 (-53) < dyadic K (Zpos m) e).
    { apply dyadic_exponent_lt; lia. }
    lia.
Qed.

(** With the draw in the unit interval the distance lies in
    [[0.05, 0.7000000000000001]]. *)
Lemma distance_range (u : float) :
  (0 <=? u)%float = true -> (u <? 1)%float = true ->
  (0.05 <=? 1 - (0.3 + (0.95 - 0.3) * u))%float = true
  /\ (1 - (0.3 + (0.95 - 0.3) * u) <=? 0.7000000000000001)%float = true.
Proof.
  intros H0 H1.
  destruct (distance_finite 2200 u ltac:(lia) H0 H1) as (m & e & Hd & [Cm Hm] & Hlo & Hhi).
  rewrite !leb_spec, Hd.
  change (Prim2SF 0.05) with (S754_finite false 7205759403792794 (-57)).
  change (Prim2SF 0.7000000000000001) with (S754_finite false 6305039478318695 (-53)).
  split; apply (SFleb_canonical 2200); try assumption; try lia; reflexivity.
Qed.

Lemma threshold_on_distance_at (K : Z) (u : float) :
  2148 <= K -> (0 <=? u)%float = true -> (u <? 1)%float = true ->
  (0.7 <? 0.3 + (0.95 - 0.3) * u)%float = (1 - (0.3 + (0.95 - 0.3) * u) <? 0.3)%float.
Proof.
  intros HK2 H0 H1.
  destruct (similarity_finite K u HK2 H0 H1) as (ms & es & Hs & [Cs Es] & Hslo & Hshi).
  destruct (canonical_bounds _ _ Cs) as (Es1 & _ & _).
  assert (C07 : canonical 6305039478318694 (-53)) by reflexivity.
  assert (C03 : canonical 5404319552844595 (-54)) by reflexivity.
  assert (HP : 0 < 2 ^ (-57 + K)) by (apply pow2_pos; lia).
  assert (HK : 1074 <= K) by lia.
  assert (HKs : 0 <= es + K) by lia.
  pose proof Hshi as Hshi'.
  rewrite (dyadic_rebase K 8556839292003942 (-53) (-57)) in Hshi' by lia.
  rewrite (dyadic_rebase K 5404319552844595 (-54) (-57)) in Hslo by lia.
  change (2 ^ (-53 - -57)) with 16 in Hshi'. change (2 ^ (-54 - -57)) with 8 in Hslo.
  rewrite !ltb_spec, Hs.
  change (Prim2SF 0.7) with (S754_finite false 6305039478318694 (-53)).
  change (Prim2SF 0.3) with (S754_finite false 5404319552844595 (-54)).
  destruct (SFltb (S754_finite false 6305039478318694 (-53)) (S754_finite false ms es)) eqn:Hcmp.
  - apply (SFltb_canonical K) in Hcmp; [| assumption ..].
    pose proof (above_threshold K ms es HK Cs Hshi Hcmp) as Hnext.
    rewrite (dyadic_rebase K 6305039478318695 (-53) (-57)) in Hnext by lia.
    change (2 ^ (-53 - -57)) with 16 in Hnext.
    destruct (one_minus_between K _ ms es 7205759403792794 (-57) 5404319552844594 (-54) Hs
                HKs HK ltac:(reflexivity) ltac:(split; [reflexivity | lia]))
      as (md & ed & Hd & [Cd _] & _ & Hdhi).
    { rewrite (dyadic_rebase K 4503599627370496 (-52) (-57)) by lia.
      rewrite (dyadic_rebase K 5404319552844594 (-54) (-57)) by lia.
      change (2 ^ (-52 - -57)) with 32. change (2 ^ (-54 - -57)) with 8.
      unfold dyadic in *. lia. }
    rewrite Hd. symmetry. apply (SFltb_canonical K); try assumption.
    rewrite (dyadic_rebase K 5404319552844594 (-54) (-57)) in Hdhi by lia.
    rewrite (dyadic_rebase K 5404319552844595 (-54) (-57)) by lia.
    change (2 ^ (-54 - -57)) with 8 in *. unfold dyadic in *. lia.
  - assert (Hle : dyadic K (Zpos ms) es <= dyadic K 6305039478318694 (-53)).
    { destruct (Z.le_gt_cases (dyadic K (Zpos ms) es) (dyadic K 6305039478318694 (-53)))
        as [| Hgt]; [assumption |].
      apply (SFltb_canonical K) in Hgt; [congruence | assumption ..]. }
    rewrite (dyadic_rebase K 6305039478318694 (-53) (-57)) in Hle by lia.
    change (2 ^ (-53 - -57)) with 16 in Hle.
    destruct (one_minus_between K _ ms es 5404319552844596 (-54) 6305039478318695 (-53) Hs
                HKs HK ltac:(reflexivity) ltac:(split; [reflexivity | lia]))
      as (md & ed & Hd & [Cd _] & Hdlo & _).
    { rewrite (dyadic_rebase K 4503599627370496 (-52) (-57)) by lia.
      rewrite (dyadic_rebase K 5404319552844596 (-54) (-57)) by lia.
      rewrite (dyadic_rebase K 6305039478318695 (-53) (-57)) by lia.
      change (2 ^ (-52 - -57)) with 32. change (2 ^ (-54 - -57)) with 8.
      change (2 ^ (-53 - -57)) with 16.
      unfold dyadic in *. lia. }
    rewrite Hd. symmetry.
    destruct (SFltb (S754_finite false md ed) (S754_finite false 5404319552844595 (-54)))
      eqn:Hcmp2; [exfalso | reflexivity].
    apply (SFltb_canonical K) in Hcmp2; [| assumption ..].
    rewrite (dyadic_rebase K 5404319552844596 (-54) (-57)) in Hdlo by lia.
    rewrite (dyadic_rebase K 5404319552844595 (-54) (-57)) in Hcmp2 by lia.
    change (2 ^ (-54 - -57)) with 8 in *. unfold dyadic in *. lia.
Qed.

(** The similarity is above 0.7 exactly when the distance is below 0.3:
    rounding does not pull the two thresholds apart. *)
Lemma threshold_on_distance (u : float) :
  (0 <=? u)%float = true -> (u <? 1)%float = true ->
  (0.7 <? 0.3 + (0.95 - 0.3) * u)%float = (1 - (0.3 + (0.95 - 0.3) * u) <? 0.3)%float.
Proof. apply (threshold_on_distance_at 2200). lia. Qed.


End Comparison.

(** X5: with both references present and the generator's double in the unit
    interval, the distance [1 - similarity] that the report is written
    from lies in [[0.05, 0.7000000000000001]]: it is never negative and
    never reaches one. *)
Theorem distance_bounds (g : RandomState) (audio1 audio2 : string) :
  unit_interval (double_at g (drawn g)) →
  ∃ similarity distance,
    compare_speakers (Some audio1) (Some audio2) g =
      (Returned (result_text audio1 audio2 similarity distance), advance Double 1 g)
    ∧ similarity = (0.3 + (0.95 - 0.3) * double_at g (drawn g))%float
    ∧ distance = (1 - similarity)%float
    ∧ (0.05 <=? distance)%float = true
    ∧ (distance <=? 0.7000000000000001)%float = true.
Proof.
  intros [H0 H1].
  exists (drawn_similarity g), (1 - drawn_similarity g)%float.
  split; [apply compare_speakers_present |].
  split; [reflexivity |]. split; [reflexivity |].
  apply Comparison.distance_range; assumption.
Qed.

Lemma distance_bounds_witness :
  unit_interval (double_at (generator_yielding 0.25) (drawn (generator_yielding 0.25)))
  ∧ ∃ similarity distance,
      compare_speakers (Some "a.wav") (Some "b.wav") (generator_yielding 0.25) =
        (Returned (result_text "a.wav" "b.wav" similarity distance),
         advance Double 1 (generator_yielding 0.25))
      ∧ similarity = (0.3 + (0.95 - 0.3) * 0.25)%float
      ∧ distance = (1 - similarity)%float
      ∧ (0.05 <=? distance)%float = true
      ∧ (distance <=? 0.7000000000000001)%float = true.
Proof.
  split; [split; reflexivity |].
  apply (distance_bounds (generator_yielding 0.25) "a.wav" "b.wav").
  split; reflexivity.
Defined.

(** X10: the verdict agrees with the distance [1 - similarity] that the
    report is written from: with the generator's double in the unit
    interval the report ends with the verdict [同一说话人] exactly when
    that distance is below 0.3, and with [不同说话人] exactly when it is
    not. *)
Theorem verdict_agrees_with_distance (g : RandomState) (audio1 audio2 : string) :
  unit_interval (double_at g (drawn g)) →
  ∃ report similarity distance,
    compare_speakers (Some audio1) (Some audio2) g = (Returned report, advance Double 1 g)
    ∧ report = result_text audio1 audio2 similarity distance
    ∧ similarity = (0.3 + (0.95 - 0.3) * double_at g (drawn g))%float
    ∧ distance = (1 - similarity)%float
    ∧ (verdict similarity = "同一说话人" ↔ (distance <? 0.3)%float = true)
    ∧ (verdict similarity = "不同说话人" ↔ (distance <? 0.3)%float = false)
    ∧ (ends_with ("**判断：** 同一说话人" +:+ LF) report ↔ (distance <? 0.3)%float = true)
    ∧ (ends_with ("**判断：** 不同说话人" +:+ LF) report ↔ (distance <? 0.3)%float = false).
Proof.
  intros [H0 H1].
  exists (result_text audio1 audio2 (drawn_similarity g) (1 - drawn_similarity g)%float).
  exists (drawn_similarity g), (1 - drawn_similarity g)%float.
  split; [apply compare_speakers_present |].
  split; [reflexivity |]. split; [reflexivity |]. split; [reflexivity |].
  assert (Hends : ends_with ("**判断：** " +:+ verdict (drawn_similarity g) +:+ LF)
                    (result_text audio1 audio2 (drawn_similarity g)
                       (1 - drawn_similarity g)%float)).
  { unfold result_text. tail_from "**判断：** ". }
  revert Hends. unfold verdict, drawn_similarity.
  rewrite <- (Comparison.threshold_on_distance _ H0 H1).
  destruct (0.7 <? 0.3 + (0.95 - 0.3) * double_at g (drawn g))%float; intros Hends.
  - split; [split; congruence |]. split; [split; congruence |].
    split; [split; [reflexivity | intros _; exact Hends] |].
    split; [| discriminate]. intros Hother.
    pose proof (ends_with_same_length _ _ _ Hends Hother eq_refl) as Heq.
    vm_compute in Heq. discriminate Heq.
  - split; [split; congruence |]. split; [split; congruence |].
    split; [| split; [reflexivity | intros _; exact Hends]].
    split; [| discriminate]. intros Hother.
    pose proof (ends_with_same_length _ _ _ Hends Hother eq_refl) as Heq.
    vm_compute in Heq. discriminate Heq.
Qed.

Lemma verdict_agrees_with_distance_witness :
  unit_interval (double_at (generator_yielding 0.75) (drawn (generator_yielding 0.75)))
  ∧ ∃ report similarity distance,
      compare_speakers (Some "a.wav") (Some "b.wav") (generator_yielding 0.75) =
        (Returned report, advance Double 1 (generator_yielding 0.75))
      ∧ report = result_text "a.wav" "b.wav" similarity distance
      ∧ similarity = (0.3 + (0.95 - 0.3) * 0.75)%float
      ∧ distance = (1 - similarity)%float
      ∧ (verdict similarity = "同一说话人" ↔ (distance <? 0.3)%float = true)
      ∧ (verdict similarity = "不同说话人" ↔ (distance <? 0.3)%float = false)
      ∧ (ends_with ("**判断：** 同一说话人" +:+ LF) report ↔ (distance <? 0.3)%float = true)
      ∧ (ends_with ("**判断：** 不同说话人" +:+ LF) report ↔ (distance <? 0.3)%float = false).
Proof.
  split; [split; reflexivity |].
  apply (verdict_agrees_with_distance (generator_yielding 0.75) "a.wav" "b.wav").
  split; reflexivity.
Defined.



(** ** The interface *)

Lemma strip_prefix_sound (p s after : string) :
  strip_prefix p s = Some after → s = p +:+ after.
Proof.
  revert s. induction p as [|a p IH]; intros s H.
  - injection H as ->. reflexivity.
  - destruct s as [|b s]; [discriminate |]. cbn [strip_prefix] in H.
    destruct (Ascii.eqb a b) eqn:E; [| discriminate].
    apply Ascii.eqb_eq in E as ->. rewrite append_cons. f_equal. now apply IH.
Qed.

Lemma find_text_sound (sub s before after : string) :
  find_text sub s = Some (before, after) → contains sub s.
Proof.
  revert before. induction s as [|c s IH]; intros before H.
  - cbn [find_text] in H. destruct (strip_prefix sub "") as [rest |] eqn:E; [| discriminate].
    exists "", rest. apply (strip_prefix_sound sub "" rest E).
  - cbn [find_text] in H. destruct (strip_prefix sub (String c s)) as [rest |] eqn:E.
    + exists "", rest. apply (strip_prefix_sound sub (String c s) rest E).
    + destruct (find_text sub s) as [[b a] |] eqn:F; [| discriminate].
      injection H as <- <-.
      destruct (IH b eq_refl) as (x & y & ->).
      exists (String c x), y. reflexivity.
Qed.

Module InterfaceFacts.

Import Interface.

(** What the wiring keeps true of the extraction tab. *)
Definition consistent (st : tab) : Prop :=
  window_type st ∈ choices
  ∧ duration_visible st = String.eqb (window_type st) "sliding"
  ∧ step_visible st = String.eqb (window_type st) "sliding".

Lemma run_preserves (P : tab → Prop) (allowed : action → Prop) :
  (∀ st a st', P st → allowed a → act st a = Some st' → P st') →
  ∀ trace st st', P st → Forall allowed trace → run st trace = Some st' → P st'.
Proof.
  intros Hstep trace. induction trace as [|a trace IH]; intros st st' HP Hall Hrun.
  - injection Hrun as <-. exact HP.
  - cbn [run] in Hrun. destruct (act st a) as [st1 |] eqn:Ea; [| discriminate].
    inversion Hall as [| ? ? Ha Hrest]; subst.
    eapply IH; [| exact Hrest | exact Hrun]. eapply Hstep; eauto.
Qed.

Lemma act_consistent (st : tab) (a : action) (st' : tab) :
  consistent st → act st a = Some st' → consistent st'.
Proof.
  intros (Hw & Hd & Hs) H. destruct a as [path | choice | v | v]; cbn [act] in H.
  - injection H as <-. repeat split; assumption.
  - destruct (bool_decide (choice ∈ choices)) eqn:Ec; [| discriminate]. cbn [negb] in H.
    apply bool_decide_eq_true in Ec.
    destruct (String.eqb choice (window_type st)).
    + injection H as <-. repeat split; assumption.
    + injection H as <-. split; [exact Ec | split; reflexivity].
  - destruct (duration_visible st); [| discriminate].
    injection H as <-. repeat split; assumption.
  - destruct (step_visible st); [| discriminate].
    injection H as <-. repeat split; assumption.
Qed.

End InterfaceFacts.

(** X12: whatever the user does, the duration and step inputs are shown
    together and exactly while the sliding window is chosen, and the window
    type is one of the two choices. *)
Theorem inputs_shown_while_sliding (trace : list Interface.action) (st : Interface.tab) :
  Interface.run Interface.initial trace = Some st →
  Interface.window_type st ∈ Interface.choices
  ∧ (Interface.duration_visible st = true ↔ Interface.window_type st = "sliding")
  ∧ (Interface.step_visible st = true ↔ Interface.window_type st = "sliding").
Proof.
  intros Hrun.
  assert (H : InterfaceFacts.consistent st).
  { apply (InterfaceFacts.run_preserves InterfaceFacts.consistent (λ _, True))
      with (trace := trace) (st := Interface.initial).
    - intros s a s' Hs _. apply InterfaceFacts.act_consistent. exact Hs.
    - repeat split. unfold Interface.choices. cbn. apply list_elem_of_here.
    - apply Forall_forall. intros. exact I.
    - exact Hrun. }
  destruct H as (Hw & -> & ->). split; [exact Hw |].
  split; apply String.eqb_eq.
Qed.

Lemma inputs_shown_while_sliding_witness :
  Interface.run Interface.initial
    [Interface.SetAudio (Some "a.wav"); Interface.Choose "sliding";
     Interface.SetDuration (Some 5%float)] =
    Some {| Interface.audio_input := Some "a.wav"; Interface.window_type := "sliding";
            Interface.duration := Some 5%float; Interface.duration_visible := true;
            Interface.step := Some 1%float; Interface.step_visible := true |}
  ∧ (true = true ↔ "sliding" = "sliding").
Proof.
  split; [reflexivity |].
  apply (inputs_shown_while_sliding
           [Interface.SetAudio (Some "a.wav"); Interface.Choose "sliding";
            Interface.SetDuration (Some 5%float)]
           {| Interface.audio_input := Some "a.wav"; Interface.window_type := "sliding";
              Interface.duration := Some 5%float; Interface.duration_visible := true;
              Interface.step := Some 1%float; Interface.step_visible := true |}).
  reflexivity.
Defined.

(** X14: the model information tab and [load_model_info] agree: the page
    gives the sample rate and the embedding dimension that the function
    returns. *)
Theorem model_info_page_agrees (g : RandomState) :
  ∃ info sample_rate embedding_dim,
    load_model_info g = (Returned info, g)
    ∧ info !! "sample_rate" = Some sample_rate
    ∧ info !! "embedding_dim" = Some embedding_dim
    ∧ contains ("**采样率：** " +:+ format_value sample_rate +:+ " Hz" +:+ LF)
        Interface.model_info_page
    ∧ contains ("**嵌入维度：** " +:+ format_value embedding_dim +:+ LF)
        Interface.model_info_page.
Proof.
  eexists _, (VInt 16000), (VInt 256). split; [reflexivity |].
  split; [reflexivity |]. split; [reflexivity |].
  split; eapply find_text_sound; vm_compute; reflexivity.
Qed.
